(** * GEMM dispatch, work partitioning and safe addressing of mkl-dnn

    A shallow embedding of
    - [src/cpu/gemm/gemm.cpp]: input validation and routing of the GEMM
      entry points;
    - [src/common/mkldnn_thread_parallel_nd.hpp]: the [for_nd] loops;
    - [src/cpu/jit_generator.hpp]: [EVEX_compress_addr], [make_safe_addr],
      [safe_add], [safe_sub] and the tail of [preamble].

    C [int] values are integers of [Z]; where the source multiplies them the
    32-bit (resp. 64-bit [size_t]) wrap-around is written out.  A pointer
    argument is an [option]: [None] is [nullptr]. *)

From Stdlib Require Import ZArith List Bool Ascii Lia.
From Stdlib Require Import SpecFloat.
Import ListNotations.

Local Open Scope Z_scope.
Local Open Scope bool_scope.

(** ** Machine integers *)

Definition INT_MAX : Z := 2147483647.
Definition INT_MIN : Z := -2147483648.

(** Reduction of an integer to the 32-bit two's complement [int]. *)
Definition wrap_int (z : Z) : Z := (z + 2 ^ 31) mod 2 ^ 32 - 2 ^ 31.

(** [a * b] on [int] operands. *)
Definition int_mul (a b : Z) : Z := wrap_int (a * b).

(** Reduction to the 64-bit unsigned [size_t]. *)
Definition wrap_size_t (z : Z) : Z := z mod 2 ^ 64.

(** Modelled from the spec: [cpu_isa_t] and [mayiuse] come from
    [cpu_isa_traits.hpp] (absent).  Only the capability tokens queried in the
    modelled code are listed; the capability oracle itself is a parameter
    wherever it is consulted. *)
Inductive cpu_isa_t : Set := avx | avx512_common | avx512_core | avx512_mic.

(** ** The parallel executor ([mkldnn_thread_parallel_nd.hpp]) *)

Module ParallelNd.

(** Modelled from the spec: [balance211] is defined in [mkldnn_thread.hpp],
    which is not among the sources.  It splits [n] units into [team]
    contiguous near-equal ranges; the remainder [n mod team] is handed out as
    one extra unit each to the lowest-indexed workers.  The result is the
    half-open range [(n_start, n_end)] of worker [tid]. *)
Definition balance211 (n team tid : Z) : Z * Z :=
  let n_min := n / team in
  let remainder := n mod team in
  let n_my := if tid <? remainder then n_min + 1 else n_min in
  let n_start := tid * n_min + Z.min tid remainder in
  (n_start, n_start + n_my).

(** Modelled from the spec: [utils::nd_iterator_init] ([utils.hpp], absent)
    converts a linear index into a coordinate tuple by mixed-radix
    decomposition against the extents, the innermost (last) dimension varying
    fastest.  The first component is what is left of the index once every
    extent has been divided out. *)
Fixpoint nd_iterator_init (start : Z) (Ds : list Z) : Z * list Z :=
  match Ds with
  | [] => (start, [])
  | X :: tuple =>
      let (start', xs) := nd_iterator_init start tuple in
      (start' / X, start' mod X :: xs)
  end.

(** Modelled from the spec: [utils::nd_iterator_step] ([utils.hpp], absent)
    advances the coordinate by one position, innermost dimension first; the
    boolean is the carry out of the outermost processed dimension. *)
Fixpoint nd_iterator_step (ds Ds : list Z) : bool * list Z :=
  match ds, Ds with
  | x :: xs, X :: tuple =>
      let (carry, xs') := nd_iterator_step xs tuple in
      if carry
      then let x' := (x + 1) mod X in (x' =? 0, x' :: xs')
      else (false, x :: xs')
  | _, _ => (true, [])
  end.

(** The values [d0, d0+1, ...] taken by a counter over [n] iterations. *)
Fixpoint count_up (d0 : Z) (n : nat) : list Z :=
  match n with
  | O => []
  | S n' => d0 :: count_up (d0 + 1) n'
  end.

(** One-dimensional [for_nd]: the arguments at which [f] is invoked, in
    order.  The loop [for (; d0 < end; ++d0)] runs [end - d0] times when
    that is positive and not at all otherwise. *)
Definition for_nd_1 (ithr nthr D0 : Z) : list Z :=
  let (d0, end_) := balance211 D0 nthr ithr in
  count_up d0 (Z.to_nat (end_ - d0)).

(** [(size_t)D0 * D1 * ...]: every product is reduced to 64 bits. *)
Definition work_amount (D0 : Z) (Ds : list Z) : Z :=
  fold_left (fun w D => wrap_size_t (w * D)) Ds (wrap_size_t D0).

(** The body of the loop over [iwork]: [f] is invoked at the current
    coordinate, then the coordinate is stepped. *)
Fixpoint for_nd_loop (n : nat) (ds Ds : list Z) : list (list Z) :=
  match n with
  | O => []
  | S n' => ds :: for_nd_loop n' (snd (nd_iterator_step ds Ds)) Ds
  end.

(** The common shape of the overloads of [for_nd] with two to six extents
    [D0, Ds]: the coordinate tuples at which [f] is invoked, in order. *)
Definition for_nd_n (ithr nthr D0 : Z) (Ds : list Z) : list (list Z) :=
  let work_amount := work_amount D0 Ds in
  if work_amount =? 0 then []
  else
    let (start, end_) := balance211 work_amount nthr ithr in
    let ds := snd (nd_iterator_init start (D0 :: Ds)) in
    for_nd_loop (Z.to_nat (end_ - start)) ds (D0 :: Ds).

Definition for_nd_2 (ithr nthr D0 D1 : Z) := for_nd_n ithr nthr D0 [D1].
Definition for_nd_3 (ithr nthr D0 D1 D2 : Z) := for_nd_n ithr nthr D0 [D1; D2].
Definition for_nd_4 (ithr nthr D0 D1 D2 D3 : Z) :=
  for_nd_n ithr nthr D0 [D1; D2; D3].
Definition for_nd_5 (ithr nthr D0 D1 D2 D3 D4 : Z) :=
  for_nd_n ithr nthr D0 [D1; D2; D3; D4].
Definition for_nd_6 (ithr nthr D0 D1 D2 D3 D4 D5 : Z) :=
  for_nd_n ithr nthr D0 [D1; D2; D3; D4; D5].

(** Overload resolution on the number of extents; there is no overload for
    zero or for more than six extents. *)
Definition for_nd (ithr nthr : Z) (Ds : list Z) : option (list (list Z)) :=
  match Ds with
  | [D0] => Some (map (fun d0 => [d0]) (for_nd_1 ithr nthr D0))
  | [D0; D1] => Some (for_nd_2 ithr nthr D0 D1)
  | [D0; D1; D2] => Some (for_nd_3 ithr nthr D0 D1 D2)
  | [D0; D1; D2; D3] => Some (for_nd_4 ithr nthr D0 D1 D2 D3)
  | [D0; D1; D2; D3; D4] => Some (for_nd_5 ithr nthr D0 D1 D2 D3 D4)
  | [D0; D1; D2; D3; D4; D5] => Some (for_nd_6 ithr nthr D0 D1 D2 D3 D4 D5)
  | _ => None
  end.

(** The worker ids [0 .. nthr-1]. *)
Definition team (nthr : Z) : list Z := count_up 0 (Z.to_nat nthr).

(** [parallel_nd] / [parallel_nd_in_omp]: every worker of the team runs
    [for_nd] with its own id.  The result lists the workers' invocation
    sequences by worker id; their relative timing is not modelled. *)
Definition parallel_nd (nthr : Z) (Ds : list Z)
  : list (option (list (list Z))) :=
  map (fun ithr => for_nd ithr nthr Ds) (team nthr).

End ParallelNd.

(** ** The GEMM dispatcher ([gemm.cpp]) *)

Module Gemm.

(** Modelled from the spec: [mkldnn_status_t] is declared in
    [mkldnn_types.h], which is not among the sources; the status codes are
    the three the spec lists (Success, InvalidArguments, Unimplemented). *)
Inductive mkldnn_status_t : Set :=
| mkldnn_success
| mkldnn_invalid_arguments
| mkldnn_unimplemented.

Definition status_eqb (a b : mkldnn_status_t) : bool :=
  match a, b with
  | mkldnn_success, mkldnn_success => true
  | mkldnn_invalid_arguments, mkldnn_invalid_arguments => true
  | mkldnn_unimplemented, mkldnn_unimplemented => true
  | _, _ => false
  end.

(** A [float]: the IEEE-754 value it denotes. *)
Definition float := spec_float.

(** [x != 0] on floats: false exactly on the two zeros (a NaN compares
    unequal to everything). *)
Definition float_ne_zero (x : float) : bool :=
  match x with
  | S754_zero _ => false
  | _ => true
  end.

Definition float_zero : float := S754_zero false.
Definition float_one : float := S754_finite false 8388608 (-23).

(** Modelled from the spec: [utils::one_of] ([utils.hpp], absent) tests
    whether its first argument equals one of the others. *)
Definition one_of (c : ascii) (cs : list ascii) : bool :=
  existsb (Ascii.eqb c) cs.

(** Modelled from the spec: [utils::everyone_is] ([utils.hpp], absent) tests
    whether all of the other arguments equal the first. *)
Definition everyone_is (v : Z) (vs : list Z) : bool := forallb (Z.eqb v) vs.

(** Modelled from the spec: the macro [IMPLICATION] ([utils.hpp], absent). *)
Definition IMPLICATION (cause effect : bool) : bool := negb cause || effect.

Definition is_null {A : Type} (p : option A) : bool :=
  match p with
  | None => true
  | Some _ => false
  end.

(** [check_gemm_input].  The first arm of the [match] is the code after the
    [utils::any_null] test, with every scalar argument dereferenced; the
    second arm is that test succeeding. *)
Definition check_gemm_input (transa transb : option ascii)
    (M N K lda ldb ldc : option Z) (alpha beta : option float)
    (with_bias : bool) : mkldnn_status_t :=
  match transa, transb, M, N, K, lda, ldb, ldc, alpha, beta with
  | Some transa, Some transb, Some M, Some N, Some K,
    Some lda, Some ldb, Some ldc, Some _, Some beta =>
      if with_bias && float_ne_zero beta then mkldnn_unimplemented
      else
        let consistency :=
          true
          && one_of transa ["T"; "t"; "N"; "n"]%char
          && one_of transb ["T"; "t"; "N"; "n"]%char
          && (0 <=? M)
          && (0 <=? N)
          && (0 <=? K) in
        if negb consistency then mkldnn_invalid_arguments
        else
          let isTransA := one_of transa ["T"; "t"]%char in
          let isTransB := one_of transb ["T"; "t"]%char in
          let nrowA := if isTransA then K else M in
          let nrowB := if isTransB then N else K in
          let consistency :=
            true
            && (Z.max 1 nrowA <=? lda)
            && (Z.max 1 nrowB <=? ldb)
            && (Z.max 1 M <=? ldc) in
          if negb consistency then mkldnn_invalid_arguments
          else mkldnn_success
  | _, _, _, _, _, _, _, _, _, _ => mkldnn_invalid_arguments
  end.

(** [check_gemm_x8x8x32_input]. *)
Definition check_gemm_x8x8x32_input (offsetc transa transb : option ascii)
    (M N K lda ldb ldc : option Z) (alpha beta : option float)
    (with_bias : bool) : mkldnn_status_t :=
  match offsetc with
  | None => mkldnn_invalid_arguments
  | Some oc =>
      if negb (one_of oc ["F"; "f"; "C"; "c"; "R"; "r"]%char)
      then mkldnn_invalid_arguments
      else check_gemm_input transa transb M N K lda ldb ldc alpha beta
             with_bias
  end.

(** *** Requests *)

(** A data pointer: the address of its first element, or [nullptr]. *)
Definition ptr := option Z.

(** [C + offset], in elements. *)
Definition ptr_add (p : ptr) (offset : Z) : ptr :=
  option_map (fun a => a + offset) p.

(** The thirteen arguments shared by [extended_sgemm], [mkldnn_sgemm] and
    [mkldnn_gemm_bf16bf16f32]. *)
Record sgemm_args : Type := {
  transa : option ascii;  transb : option ascii;
  M : option Z;  N : option Z;  K : option Z;
  alpha : option float;
  A : ptr;  lda : option Z;
  B : ptr;  ldb : option Z;
  beta : option float;
  C : ptr;  ldc : option Z
}.

(** The arguments of the two [gemm_s8x8s32] specialisations; [ao] and [bo]
    point to one [int8_t] each, [co] to the output zero-points. *)
Record igemm_args : Type := {
  i_transa : option ascii;  i_transb : option ascii;
  i_offsetc : option ascii;
  i_M : option Z;  i_N : option Z;  i_K : option Z;
  i_alpha : option float;
  i_A : ptr;  i_LDA : option Z;  i_ao : option Z;
  i_B : ptr;  i_LDB : option Z;  i_bo : option Z;
  i_beta : option float;
  i_C : ptr;  i_LDC : option Z;
  i_co : ptr
}.

(** A call of a kernel that is not part of the dispatcher, with the
    arguments the dispatcher passes. *)
Inductive call : Type :=
| cblas_sgemm (trA trB : bool) (a : sgemm_args)
| cblas_saxpy (n : Z) (x y : ptr)
| jit_avx512_common_gemm_f32 (a : sgemm_args) (bias : ptr)
| gemm_driver_f32 (offsetc : option ascii) (a : sgemm_args) (bias : ptr)
    (force_jit_nocopy_gemm : bool)
| ref_gemm_f32 (a : sgemm_args) (bias : ptr)
| cblas_gemm_s8u8s32 (a : igemm_args)
| gemm_driver_s8u8 (a : igemm_args)
| gemm_driver_s8s8 (a : igemm_args)
| simple_gemm_s8s8s32 (a : igemm_args)
| ref_gemm_s8u8s32 (a : igemm_args)
| ref_gemm_s8s8s32 (a : igemm_args)
| gemm_driver_bf16 (a : sgemm_args).

(** The build configuration, the capability oracle, the thread team size
    and the kernels the dispatcher hands a request to.  [mem] is the caller's
    memory, which holds the operands and the output buffer [C]; a kernel
    returns a status and the memory it leaves. *)
Record platform : Type := {
  mem : Type;
  USE_CBLAS : bool;
  USE_MKL_IGEMM : bool;
  ARM_ARCH : bool;
  mayiuse : cpu_isa_t -> bool;
  mkldnn_get_num_threads : Z;
  extern : call -> mem -> mkldnn_status_t * mem
}.

Section Dispatch.

Variable P : platform.

(** The observable state of a run: the memory and the kernels called so
    far. *)
Record world : Type := { heap : mem P; called : list call }.

(** A computation either stops on a null-pointer dereference ([None]) or
    yields a value and a new state. *)
Definition Run (T : Type) : Type := world -> option (T * world).

Definition ret {T : Type} (x : T) : Run T := fun w => Some (x, w).

Definition bind {T U : Type} (m : Run T) (k : T -> Run U) : Run U :=
  fun w => match m w with
           | Some (x, w') => k x w'
           | None => None
           end.

Definition deref {T : Type} (p : option T) : Run T :=
  fun w => match p with
           | Some v => Some (v, w)
           | None => None
           end.

Definition invoke (c : call) : Run mkldnn_status_t :=
  fun w => let (status, h) := extern P c (heap w) in
           Some (status, {| heap := h; called := called w ++ [c] |}).

Fixpoint for_each {T : Type} (l : list T) (f : T -> Run unit) : Run unit :=
  match l with
  | [] => ret tt
  | x :: l' => bind (f x) (fun _ => for_each l' f)
  end.

Notation "x <- m ;; k" := (bind m (fun x => k))
  (at level 61, m at next level, right associativity).
Notation "m ;;; k" := (bind m (fun _ => k))
  (at level 61, right associativity).

(** The one-dimensional [parallel_nd(D0, f)] with an effectful body: the
    workers' iterations are run one worker after the other. *)
Definition parallel_nd_1 (D0 : Z) (f : Z -> Run unit) : Run unit :=
  let nthr := mkldnn_get_num_threads P in
  for_each (ParallelNd.team nthr)
    (fun ithr => for_each (ParallelNd.for_nd_1 ithr nthr D0) f).

Definition check_sgemm_args (a : sgemm_args) (with_bias : bool)
  : mkldnn_status_t :=
  check_gemm_input (transa a) (transb a) (M a) (N a) (K a)
    (lda a) (ldb a) (ldc a) (alpha a) (beta a) with_bias.

Definition check_igemm_args (a : igemm_args) : mkldnn_status_t :=
  check_gemm_x8x8x32_input (i_offsetc a) (i_transa a) (i_transb a)
    (i_M a) (i_N a) (i_K a) (i_LDA a) (i_LDB a) (i_LDC a)
    (i_alpha a) (i_beta a) false.

(** [extended_sgemm]. *)
Definition extended_sgemm (a : sgemm_args) (bias : ptr)
    (force_jit_nocopy_gemm : bool) : Run mkldnn_status_t :=
  let status := check_sgemm_args a (negb (is_null bias)) in
  if negb (status_eqb status mkldnn_success) then ret status
  else if USE_CBLAS P && negb force_jit_nocopy_gemm then
    ta <- deref (transa a) ;;
    tb <- deref (transb a) ;;
    let trA := Ascii.eqb ta "t" || Ascii.eqb ta "T" in
    let trB := Ascii.eqb tb "t" || Ascii.eqb tb "T" in
    invoke (cblas_sgemm trA trB a) ;;;
    (if negb (is_null bias) then
       n_cols <- deref (N a) ;;
       parallel_nd_1 n_cols (fun n =>
         ld <- deref (ldc a) ;;
         let offset := n * ld in
         m <- deref (M a) ;;
         invoke (cblas_saxpy m bias (ptr_add (C a) offset)) ;;; ret tt)
     else ret tt) ;;;
    ret mkldnn_success
  else if negb (ARM_ARCH P) && mayiuse P avx512_mic then
    invoke (jit_avx512_common_gemm_f32 a bias)
  else if negb (ARM_ARCH P) && mayiuse P avx then
    invoke (gemm_driver_f32
              (if negb (is_null bias) then Some "C"%char else None)
              a bias force_jit_nocopy_gemm)
  else
    invoke (ref_gemm_f32 a bias).

(** [try_cblas_gemm_s8u8s32]: every scalar handed to the vendor call is
    dereferenced, the zero-points [ao] and [bo] included. *)
Definition try_cblas_gemm_s8u8s32 (a : igemm_args) : Run mkldnn_status_t :=
  if USE_MKL_IGEMM P then
    deref (i_offsetc a) ;;; deref (i_transa a) ;;; deref (i_transb a) ;;;
    deref (i_M a) ;;; deref (i_N a) ;;; deref (i_K a) ;;;
    deref (i_alpha a) ;;; deref (i_LDA a) ;;; deref (i_ao a) ;;;
    deref (i_LDB a) ;;; deref (i_bo a) ;;; deref (i_beta a) ;;;
    deref (i_LDC a) ;;;
    invoke (cblas_gemm_s8u8s32 a) ;;;
    ret mkldnn_success
  else ret mkldnn_unimplemented.

(** [gemm_s8x8s32] with [uint8_t] B. *)
Definition gemm_s8x8s32_u8 (a : igemm_args) : Run mkldnn_status_t :=
  let status := check_igemm_args a in
  if negb (status_eqb status mkldnn_success) then ret status
  else
    m <- deref (i_M a) ;;
    n <- deref (i_N a) ;;
    k <- deref (i_K a) ;;
    if (m =? 0) || (n =? 0) || (k =? 0) then ret mkldnn_success
    else
      status <- try_cblas_gemm_s8u8s32 a ;;
      if status_eqb status mkldnn_success then ret status
      else if mayiuse P avx512_core then invoke (gemm_driver_s8u8 a)
      else invoke (ref_gemm_s8u8s32 a).

(** [gemm_s8x8s32] with [int8_t] B. *)
Definition gemm_s8x8s32_s8 (a : igemm_args) : Run mkldnn_status_t :=
  let status := check_igemm_args a in
  if negb (status_eqb status mkldnn_success) then ret status
  else
    m <- deref (i_M a) ;;
    n <- deref (i_N a) ;;
    k <- deref (i_K a) ;;
    if (m =? 0) || (n =? 0) || (k =? 0) then ret mkldnn_success
    else
      let use_jit :=
        true && mayiuse P avx512_core && (1 <? int_mul m n) in
      ao <- deref (i_ao a) ;;
      bo <- deref (i_bo a) ;;
      let use_s8u8 :=
        true
        && everyone_is 0 [ao; bo]
        && IMPLICATION (negb (USE_MKL_IGEMM P)) (mayiuse P avx512_core) in
      if use_jit then invoke (gemm_driver_s8s8 a)
      else if use_s8u8 then invoke (simple_gemm_s8s8s32 a)
      else invoke (ref_gemm_s8s8s32 a).

(** [mkldnn_sgemm]: [extended_sgemm] with its two trailing arguments left at
    their defaults.  Modelled from the spec: the defaults (no bias, no forced
    no-copy path) are in the declaration in [gemm.hpp], which is absent; the
    spec lists the bias pointer as optional. *)
Definition mkldnn_sgemm (a : sgemm_args) : Run mkldnn_status_t :=
  extended_sgemm a None false.

Definition mkldnn_gemm_s8u8s32 (a : igemm_args) : Run mkldnn_status_t :=
  gemm_s8x8s32_u8 a.

Definition mkldnn_gemm_s8s8s32 (a : igemm_args) : Run mkldnn_status_t :=
  gemm_s8x8s32_s8 a.

(** [mkldnn_gemm_bf16bf16f32]. *)
Definition mkldnn_gemm_bf16bf16f32 (a : sgemm_args) : Run mkldnn_status_t :=
  let status := check_sgemm_args a false in
  if negb (status_eqb status mkldnn_success) then ret status
  else if mayiuse P avx512_core then invoke (gemm_driver_bf16 a)
  else ret mkldnn_unimplemented.

End Dispatch.

Arguments heap {P} _.
Arguments called {P} _.
Arguments ret {P T} _ _.
Arguments invoke {P} _ _.

End Gemm.

(** ** The kernel emitter ([jit_generator.hpp]) *)

Module Jit.

(** The 64-bit general-purpose registers. *)
Inductive Reg64 : Set :=
| rax | rcx | rdx | rbx | rsp | rbp | rsi | rdi
| r8 | r9 | r10 | r11 | r12 | r13 | r14 | r15.

Definition Reg64_eq_dec (a b : Reg64) : {a = b} + {a <> b}.
Proof. decide equality. Defined.

(** An address expression [base + index * scale + disp], as built by the
    assembler's [RegExp]. *)
Record RegExp : Type := {
  base_ : option Reg64;
  index_ : option Reg64;
  scale_ : Z;
  disp_ : Z
}.

(** [RegExp()]. *)
Definition RegExp0 : RegExp :=
  {| base_ := None; index_ := None; scale_ := 0; disp_ := 0 |}.

(** [e + r] for a register [r]: the first register of an expression is its
    base, a second one becomes the index with scale 1. *)
Definition add_reg (e : RegExp) (r : Reg64) : RegExp :=
  match base_ e with
  | None => {| base_ := Some r; index_ := index_ e;
               scale_ := scale_ e; disp_ := disp_ e |}
  | Some _ => {| base_ := base_ e; index_ := Some r;
                 scale_ := 1; disp_ := disp_ e |}
  end.

(** [e + r * scale] for a register [r] and a scale that is not 0. *)
Definition add_scaled (e : RegExp) (r : Reg64) (scale : Z) : RegExp :=
  if scale =? 1 then add_reg e r
  else {| base_ := base_ e; index_ := Some r;
          scale_ := scale; disp_ := disp_ e |}.

(** [e + disp]. *)
Definition add_disp (e : RegExp) (disp : Z) : RegExp :=
  {| base_ := base_ e; index_ := index_ e;
     scale_ := scale_ e; disp_ := disp_ e + disp |}.

(** The address frames used here: [ptr], [ptr_b], [zword], [zword_b]. *)
Record Address : Type := {
  bit_ : Z;
  broadcast_ : bool;
  e_ : RegExp
}.

Definition ptr (e : RegExp) : Address :=
  {| bit_ := 0; broadcast_ := false; e_ := e |}.
Definition ptr_b (e : RegExp) : Address :=
  {| bit_ := 0; broadcast_ := true; e_ := e |}.
Definition zword (e : RegExp) : Address :=
  {| bit_ := 512; broadcast_ := false; e_ := e |}.
Definition zword_b (e : RegExp) : Address :=
  {| bit_ := 512; broadcast_ := true; e_ := e |}.

(** The instructions emitted by the modelled functions. *)
Inductive Operand : Type :=
| reg (r : Reg64)
| imm (i : Z).

Inductive insn : Type :=
| mov (dst : Reg64) (imm64 : Z)
| add (dst : Reg64) (src : Operand)
| sub (dst : Reg64) (src : Operand)
| push (src : Reg64).

(** *** Semantics of the emitted code *)

(** A register file and the stack it pushes to. *)
Record machine : Type := { regs : Reg64 -> Z; stack : list Z }.

Definition word64 (z : Z) : Z := z mod 2 ^ 64.

(** Sign extension of the low 32 bits: the value of a 32-bit immediate of a
    64-bit instruction. *)
Definition sext32 (i : Z) : Z := (i + 2 ^ 31) mod 2 ^ 32 - 2 ^ 31.

Definition set_reg (f : Reg64 -> Z) (r : Reg64) (v : Z) : Reg64 -> Z :=
  fun r' => if Reg64_eq_dec r' r then v else f r'.

Definition operand_value (f : Reg64 -> Z) (o : Operand) : Z :=
  match o with
  | reg r => f r
  | imm i => sext32 i
  end.

Definition exec (i : insn) (m : machine) : machine :=
  match i with
  | mov dst v =>
      {| regs := set_reg (regs m) dst (word64 v); stack := stack m |}
  | add dst src =>
      {| regs := set_reg (regs m) dst
                   (word64 (regs m dst + operand_value (regs m) src));
         stack := stack m |}
  | sub dst src =>
      {| regs := set_reg (regs m) dst
                   (word64 (regs m dst - operand_value (regs m) src));
         stack := stack m |}
  | push src =>
      {| regs := set_reg (regs m) rsp (word64 (regs m rsp - 8));
         stack := regs m src :: stack m |}
  end.

Definition run (code : list insn) (m : machine) : machine :=
  fold_left (fun m i => exec i m) code m.

Definition reg_value (f : Reg64 -> Z) (r : option Reg64) : Z :=
  match r with
  | Some r => f r
  | None => 0
  end.

(** The effective address an address expression denotes. *)
Definition effective_address (f : Reg64 -> Z) (a : Address) : Z :=
  let e := e_ a in
  word64 (reg_value f (base_ e) + reg_value f (index_ e) * scale_ e
          + disp_ e).

(** *** The generator's helpers *)

Definition EVEX_max_8b_offt : Z := 512.
Definition reg_EVEX_max_8b_offt : Reg64 := rbp.

(** The callee-saved registers of the 64-bit System V convention
    ([abi_save_gpr_regs] without [_WIN32]). *)
Definition abi_save_gpr_regs : list Reg64 := [rbx; rbp; r12; r13; r14; r15].

(** [preamble], in the build for x86-64 System V ([xmm_to_preserve = 0]):
    the callee-saved registers are pushed, then the offset register is
    loaded when [mayiuse(avx512_common)]. *)
Definition preamble (mayiuse : cpu_isa_t -> bool) : list insn :=
  map push abi_save_gpr_regs
  ++ (if mayiuse avx512_common
      then [mov reg_EVEX_max_8b_offt (2 * EVEX_max_8b_offt)]
      else []).

(** [static_cast<int>(raw_offt)]. *)
Definition static_cast_int (raw_offt : Z) : Z := wrap_int raw_offt.

(** [EVEX_compress_addr]; it emits no code. *)
Definition EVEX_compress_addr (base : Reg64) (raw_offt : Z) (bcast : bool)
  : Address :=
  let offt := static_cast_int raw_offt in
  let '(offt, scale) :=
    if (EVEX_max_8b_offt <=? offt) && (offt <? 3 * EVEX_max_8b_offt)
    then (offt - 2 * EVEX_max_8b_offt, 1)
    else if (3 * EVEX_max_8b_offt <=? offt) && (offt <? 5 * EVEX_max_8b_offt)
    then (offt - 4 * EVEX_max_8b_offt, 2)
    else (offt, 0) in
  let re := add_disp (add_reg RegExp0 base) offt in
  let re := if scale =? 0 then re
            else add_scaled re reg_EVEX_max_8b_offt scale in
  if bcast then zword_b re else zword re.

(** [make_safe_addr]: the code it emits and the address it returns. *)
Definition make_safe_addr (reg_out : Reg64) (offt : Z) (tmp_reg : Reg64)
    (bcast : bool) : list insn * Address :=
  if INT_MAX <? offt then
    ([mov tmp_reg offt],
     let re := add_reg (add_reg RegExp0 reg_out) tmp_reg in
     if bcast then ptr_b re else ptr re)
  else
    ([],
     let re := add_disp (add_reg RegExp0 reg_out) offt in
     if bcast then ptr_b re else ptr re).

(** [EVEX_compress_addr_safe]. *)
Definition EVEX_compress_addr_safe (base : Reg64) (raw_offt : Z)
    (reg_offt : Reg64) (bcast : bool) : list insn * Address :=
  if INT_MAX <? raw_offt then make_safe_addr base raw_offt reg_offt bcast
  else ([], EVEX_compress_addr base raw_offt bcast).

(** [safe_add]: [add(base, raw_offt)] takes a 32-bit immediate. *)
Definition safe_add (base : Reg64) (raw_offt : Z) (reg_offt : Reg64)
  : list insn :=
  if INT_MAX <? raw_offt then [mov reg_offt raw_offt; add base (reg reg_offt)]
  else [add base (imm (raw_offt mod 2 ^ 32))].

(** [safe_sub]. *)
Definition safe_sub (base : Reg64) (raw_offt : Z) (reg_offt : Reg64)
  : list insn :=
  if INT_MAX <? raw_offt then [mov reg_offt raw_offt; sub base (reg reg_offt)]
  else [sub base (imm (raw_offt mod 2 ^ 32))].

(** *** The direct-immediate form, as the spec describes the operations
    ([base + offt] encoded directly), for comparison with the code. *)

Definition direct_address (f : Reg64 -> Z) (base : Reg64) (offt : Z) : Z :=
  word64 (f base + offt).

Definition direct_add (f : Reg64 -> Z) (base : Reg64) (offt : Z)
  : Reg64 -> Z :=
  set_reg f base (word64 (f base + offt)).

Definition direct_sub (f : Reg64 -> Z) (base : Reg64) (offt : Z)
  : Reg64 -> Z :=
  set_reg f base (word64 (f base - offt)).

End Jit.

(** ** More of the kernel emitter ([jit_generator.hpp]) *)

Module JitOps.

Import Jit.

(** The instructions of [Jit.insn] and the further ones emitted by
    [postamble] and [mul_by_const]. *)
Inductive op : Type :=
| base (i : insn)
| xor_ (dst src : Reg64)
| shl (dst : Reg64) (count : Z)
| mov_reg (dst src : Reg64)
| pop (dst : Reg64)
| vzeroupper
| ret.

(** One instruction; [pop] and [ret] need a non-empty stack.  A shift count
    is taken modulo 64, [vzeroupper] touches vector registers only, [ret]
    consumes the return address. *)
Definition step (o : op) (m : machine) : option machine :=
  match o with
  | base i => Some (exec i m)
  | xor_ dst src =>
      Some {| regs := set_reg (regs m) dst
                        (Z.lxor (regs m dst) (regs m src));
              stack := stack m |}
  | shl dst count =>
      Some {| regs := set_reg (regs m) dst
                        (word64 (Z.shiftl (regs m dst) (Z.land count 63)));
              stack := stack m |}
  | mov_reg dst src =>
      Some {| regs := set_reg (regs m) dst (regs m src); stack := stack m |}
  | pop dst =>
      match stack m with
      | v :: st =>
          Some {| regs := set_reg
                            (set_reg (regs m) rsp (word64 (regs m rsp + 8)))
                            dst v;
                  stack := st |}
      | [] => None
      end
  | vzeroupper => Some m
  | ret =>
      match stack m with
      | _ :: st =>
          Some {| regs := set_reg (regs m) rsp (word64 (regs m rsp + 8));
                  stack := st |}
      | [] => None
      end
  end.

Fixpoint run_ops (code : list op) (m : machine) : option machine :=
  match code with
  | [] => Some m
  | o :: code' =>
      match step o m with
      | Some m' => run_ops code' m'
      | None => None
      end
  end.

(** The loop of [mul_by_const]: one iteration per unit of [fuel]; [None]
    when [value] is not 0 once the fuel is spent.  [value >>= 1] is the
    arithmetic shift. *)
Fixpoint mul_by_const_loop (fuel : nat) (out tmp : Reg64)
    (value p old_p : Z) : option (list op) :=
  if value =? 0 then Some []
  else
    match fuel with
    | O => None
    | S fuel' =>
        let '(code, old_p') :=
          if negb (Z.land value 1 =? 0) then
            let shift := p - old_p in
            if negb (shift =? 0)
            then ([shl out shift; base (add tmp (reg out))], p)
            else ([base (add tmp (reg out))], old_p)
          else ([], old_p) in
        match mul_by_const_loop fuel' out tmp (Z.shiftr value 1) (p + 1)
                old_p' with
        | Some rest => Some (code ++ rest)
        | None => None
        end
    end.

(** [mul_by_const]. *)
Definition mul_by_const (fuel : nat) (out tmp : Reg64) (value : Z)
  : option (list op) :=
  match mul_by_const_loop fuel out tmp value 0 0 with
  | Some body => Some (xor_ tmp tmp :: body ++ [mov_reg out tmp])
  | None => None
  end.

(** *** The cache-size query *)

(** What [get_cache_size] asks of the processor description [cpu]. *)
Record Cpu : Type := {
  getDataCacheLevels : Z;
  getDataCacheSize : Z -> Z;
  getCoresSharingDataCache : Z -> Z
}.

(** Conversion to [unsigned int]. *)
Definition to_unsigned (z : Z) : Z := z mod 2 ^ 32.

(** [get_cache_size]; [None] is a division by zero. *)
Definition get_cache_size (cpu : Cpu) (mkldnn_get_max_threads : Z)
    (level : Z) (per_core : bool) : option Z :=
  let l := to_unsigned (wrap_int (level - 1)) in
  if getDataCacheLevels cpu =? 0 then
    let L1_cache_per_core := 32000 in
    let L2_cache_per_core := 512000 in
    let L3_cache_per_core := 1024000 in
    let num_cores := if per_core then 1 else mkldnn_get_max_threads in
    if l =? 0 then Some (to_unsigned (int_mul L1_cache_per_core num_cores))
    else if l =? 1
    then Some (to_unsigned (int_mul L2_cache_per_core num_cores))
    else if l =? 2
    then Some (to_unsigned (int_mul L3_cache_per_core num_cores))
    else Some 0
  else if l <? getDataCacheLevels cpu then
    let sharing := if per_core then getCoresSharingDataCache cpu l else 1 in
    if sharing =? 0 then None
    else Some (getDataCacheSize cpu l / sharing)
  else Some 0.

(** *** Broadcasts on vector registers *)

Section Lanes.

(** The content of a 32-bit lane, and the lane of all zero bits. *)
Variable V : Type.
Variable zero : V.

(** A vector register file: register index, then lane.  The Xmm, Ymm and
    Zmm registers of one index share their low lanes. *)
Definition vregs : Type := nat -> nat -> V.

(** Memory as seen by a load: the 32-bit value at a byte address. *)
Definition vmemory : Type := Z -> V.

Inductive voperand : Type :=
| vreg (idx : nat)
| vmem (addr : Z).

Definition isMEM (o : voperand) : bool :=
  match o with
  | vmem _ => true
  | vreg _ => false
  end.

(** Lane [l] of an operand. *)
Definition lane (v : vregs) (mem : vmemory) (o : voperand) (l : nat) : V :=
  match o with
  | vreg idx => v idx l
  | vmem addr => mem (addr + 4 * Z.of_nat l)
  end.

Inductive vinsn : Type :=
| movss (x : nat) (o : voperand)
| movsd (x : nat) (o : voperand)
| shufps (x1 x2 : nat) (imm8 : Z)
| pshufd (x : nat) (o : voperand) (imm8 : Z)
| vbroadcastss (x : nat) (o : voperand)
| vpbroadcastd (x : nat) (o : voperand)
| vinsertf128 (y1 y2 x3 : nat) (imm8 : Z)
| vshufps (y1 y2 y3 : nat) (imm8 : Z).

(** The [k]-th two-bit field of a shuffle immediate. *)
Definition sel (imm8 : Z) (k : nat) : nat :=
  Z.to_nat ((imm8 / 4 ^ Z.of_nat k) mod 4).

Definition set_vreg (v : vregs) (x : nat) (lanes : nat -> V) : vregs :=
  fun r l => if Nat.eqb r x then lanes l else v r l.

(** The instructions on the register file.  The SSE forms leave the lanes
    above the low four as they are; the VEX forms write eight lanes and
    clear the ones above. *)
Definition vexec (mem : vmemory) (i : vinsn) (v : vregs) : vregs :=
  match i with
  | movss x o =>
      set_vreg v x (fun l =>
        if Nat.eqb l 0 then lane v mem o 0
        else if isMEM o && Nat.ltb l 4 then zero
        else v x l)
  | movsd x o =>
      set_vreg v x (fun l =>
        if Nat.ltb l 2 then lane v mem o l
        else if isMEM o && Nat.ltb l 4 then zero
        else v x l)
  | shufps x1 x2 imm8 =>
      set_vreg v x1 (fun l =>
        if Nat.ltb l 2 then v x1 (sel imm8 l)
        else if Nat.ltb l 4 then v x2 (sel imm8 l)
        else v x1 l)
  | pshufd x o imm8 =>
      set_vreg v x (fun l =>
        if Nat.ltb l 4 then lane v mem o (sel imm8 l) else v x l)
  | vbroadcastss x o | vpbroadcastd x o =>
      set_vreg v x (fun l => if Nat.ltb l 8 then lane v mem o 0 else zero)
  | vinsertf128 y1 y2 x3 imm8 =>
      set_vreg v y1 (fun l =>
        if Nat.ltb l 4
        then (if Z.odd imm8 then v y2 l else v x3 l)
        else if Nat.ltb l 8
        then (if Z.odd imm8 then v x3 (l - 4)%nat else v y2 l)
        else zero)
  | vshufps y1 y2 y3 imm8 =>
      set_vreg v y1 (fun l =>
        if Nat.ltb l 8 then
          let half := (4 * (l / 4))%nat in
          let j := (l mod 4)%nat in
          if Nat.ltb j 2 then v y2 (half + sel imm8 j)%nat
          else v y3 (half + sel imm8 j)%nat
        else zero)
  end.

Definition vrun (mem : vmemory) (code : list vinsn) (v : vregs) : vregs :=
  fold_left (fun v i => vexec mem i v) code v.

(** What [getIdx] returns for an operand; for an address it is a constant
    of the assembler, [address_idx]. *)
Variable address_idx : nat.

Definition getIdx (o : voperand) : nat :=
  match o with
  | vreg idx => idx
  | vmem _ => address_idx
  end.

(** [uni_vbroadcastss] for an Xmm and for a Ymm destination; [has_avx2] is
    [mayiuse(avx2)]. *)
Definition uni_vbroadcastss_xmm (x : nat) (o : voperand) : list vinsn :=
  [movss x o; shufps x x 0].

Definition uni_vbroadcastss_ymm (has_avx2 : bool) (x : nat) (o : voperand)
  : list vinsn :=
  if isMEM o || has_avx2 then [vbroadcastss x o]
  else
    let t := x in
    (if negb (Nat.eqb t (getIdx o)) then [movss t o] else [])
    ++ [vinsertf128 x x t 1; vshufps x x x 0].

(** [uni_vpbroadcastd] for an Xmm and for a Ymm destination. *)
Definition uni_vpbroadcastd_xmm (x : nat) (o : voperand) : list vinsn :=
  [movsd x o; pshufd x (vreg x) 0].

Definition uni_vpbroadcastd_ymm (has_avx2 : bool) (x : nat) (o : voperand)
  : list vinsn :=
  if has_avx2 then [vpbroadcastd x o]
  else
    let t := x in
    (if negb (Nat.eqb t (getIdx o)) then [movsd t o] else [])
    ++ [vinsertf128 x x t 1; vshufps x x x 0].

End Lanes.

End JitOps.

(** ** Prologue and epilogue of the AArch64 build ([jit_generator.hpp]) *)

Module JitA64.

Import Jit.

(** The part of the AArch64 machine that [preamble] and [postamble]
    touch: the registers x0 to x30 by number, the stack pointer, the low
    64 bits of the vector registers, and memory as the 8-byte value at an
    address. *)
Record a64 : Type := {
  xreg : nat -> Z;
  sp_ : Z;
  dreg : nat -> Z;
  memory : Z -> Z
}.

Inductive a64_insn : Type :=
| stp_pre_sp (xa xb : nat) (off : Z)
| add_sp (xd : nat) (off : Z)
| st4_d0_post (v xn : nat) (off : Z)
| stp_post (xa xb xn : nat) (off : Z)
| ld4_d0_post (v xn : nat) (off : Z)
| ldp_post (xa xb xn : nat) (off : Z)
| ldp_post_sp (xa xb : nat) (off : Z)
| mov_x (xd xs : nat)
| mov_from_sp (xd : nat)
| sub_imm (xd xs : nat) (off : Z) (tmp0 tmp1 : nat)
| predicate_op
| x64_mov_imm (r : Reg64) (v : Z)
| ret_.

Definition set_x (f : nat -> Z) (r : nat) (v : Z) : nat -> Z :=
  fun r' => if Nat.eqb r' r then v else f r'.

Definition store (mem : Z -> Z) (a v : Z) : Z -> Z :=
  fun a' => if a' =? a then v else mem a'.

Section Exec.

(** What [sub_imm] leaves in its two temporary registers is decided by the
    assembler (absent); it is a parameter. *)
Variable tmp_values : Z * Z.

(** The common tail of [preamble] emits an x86-64 [mov] of an immediate,
    which the translator (absent) turns into AArch64 code; its effect is a
    parameter. *)
Variable translated_mov : Reg64 -> Z -> a64 -> a64.

(** The instructions.
    - [stp xa, xb, [sp, #off]!] moves sp first and stores the pair there;
    - [st4 {v.d - (v+3).d}[0], [xn], #off] stores the low 64 bits of four
      vector registers and then advances xn; [ld4] loads them back;
    - [stp/ldp xa, xb, [xn], #off] access the pair at xn and then advance
      xn;
    - [ptrue], [not_], [eor] act on predicate registers only;
    - [ret] branches to x30. *)
Definition exec (i : a64_insn) (m : a64) : a64 :=
  match i with
  | stp_pre_sp xa xb off =>
      let a := word64 (sp_ m + off) in
      {| xreg := xreg m; sp_ := a; dreg := dreg m;
         memory := store (store (memory m) a (xreg m xa))
                     (word64 (a + 8)) (xreg m xb) |}
  | add_sp xd off =>
      {| xreg := set_x (xreg m) xd (word64 (sp_ m + off));
         sp_ := sp_ m; dreg := dreg m; memory := memory m |}
  | st4_d0_post v xn off =>
      let a := xreg m xn in
      {| xreg := set_x (xreg m) xn (word64 (a + off));
         sp_ := sp_ m; dreg := dreg m;
         memory :=
           store (store (store (store (memory m)
             a (dreg m v))
             (word64 (a + 8)) (dreg m (v + 1)))
             (word64 (a + 16)) (dreg m (v + 2)))
             (word64 (a + 24)) (dreg m (v + 3)) |}
  | stp_post xa xb xn off =>
      let a := xreg m xn in
      {| xreg := set_x (xreg m) xn (word64 (a + off));
         sp_ := sp_ m; dreg := dreg m;
         memory := store (store (memory m) a (xreg m xa))
                     (word64 (a + 8)) (xreg m xb) |}
  | ld4_d0_post v xn off =>
      let a := xreg m xn in
      {| xreg := set_x (xreg m) xn (word64 (a + off));
         sp_ := sp_ m;
         dreg :=
           set_x (set_x (set_x (set_x (dreg m)
             v (memory m a))
             (v + 1) (memory m (word64 (a + 8))))
             (v + 2) (memory m (word64 (a + 16))))
             (v + 3) (memory m (word64 (a + 24)));
         memory := memory m |}
  | ldp_post xa xb xn off =>
      let a := xreg m xn in
      {| xreg := set_x (set_x (set_x (xreg m)
                   xa (memory m a))
                   xb (memory m (word64 (a + 8))))
                   xn (word64 (a + off));
         sp_ := sp_ m; dreg := dreg m; memory := memory m |}
  | ldp_post_sp xa xb off =>
      let a := sp_ m in
      {| xreg := set_x (set_x (xreg m) xa (memory m a))
                   xb (memory m (word64 (a + 8)));
         sp_ := word64 (a + off); dreg := dreg m; memory := memory m |}
  | mov_x xd xs =>
      {| xreg := set_x (xreg m) xd (xreg m xs);
         sp_ := sp_ m; dreg := dreg m; memory := memory m |}
  | mov_from_sp xd =>
      {| xreg := set_x (xreg m) xd (sp_ m);
         sp_ := sp_ m; dreg := dreg m; memory := memory m |}
  | sub_imm xd xs off tmp0 tmp1 =>
      {| xreg := set_x (set_x (set_x (xreg m)
                   tmp0 (fst tmp_values))
                   tmp1 (snd tmp_values))
                   xd (word64 (xreg m xs - off));
         sp_ := sp_ m; dreg := dreg m; memory := memory m |}
  | predicate_op => m
  | x64_mov_imm r v => translated_mov r v m
  | ret_ => m
  end.

Definition run (code : list a64_insn) (m : a64) : a64 :=
  fold_left (fun m i => exec i m) code m.

End Exec.

(** [abi_save_gpr_regs_aarch64]. *)
Definition abi_save_gpr_regs_aarch64 : list nat :=
  [19; 20; 21; 22; 23; 24; 25; 26; 27; 28; 6; 7]%nat.

Definition xreg_len : Z := 8.
Definition vreg_len_preserve : Z := 8.
Definition vreg_to_preserve : Z := 8.

Definition num_abi_save_gpr_regs_aarch64 : Z :=
  Z.of_nat (length abi_save_gpr_regs_aarch64).

Definition preserved_stack_size : Z :=
  xreg_len * (2 + num_abi_save_gpr_regs_aarch64)
  + vreg_len_preserve * vreg_to_preserve.

(** The pairs [(regs[i], regs[i+1])] for [i = 0, 2, 4, ...]. *)
Fixpoint pairs (regs : list nat) : list (nat * nat) :=
  match regs with
  | a :: b :: regs' => (a, b) :: pairs regs'
  | _ => []
  end.

Section Prologue.

(** Registers and the offset of the translator's stack, declared with the
    translator (absent). *)
Variables X_TRANSLATOR_STACK X_TMP_0 X_TMP_1 : nat.
Variable xt_stack_offset : Z.

(** [preamble] with [DNNL_INDIRECT_JIT_AARCH64]. *)
Definition preamble (mayiuse : cpu_isa_t -> bool) : list a64_insn :=
  [stp_pre_sp 29 30 (- preserved_stack_size);
   add_sp 29 (xreg_len * 2)]
  ++ (if vreg_to_preserve =? 0 then []
      else [st4_d0_post 8 29 (vreg_len_preserve * 4);
            st4_d0_post 12 29 (vreg_len_preserve * 4)])
  ++ map (fun p => stp_post (fst p) (snd p) 29 (xreg_len * 2))
         (pairs abi_save_gpr_regs_aarch64)
  ++ [predicate_op; predicate_op; predicate_op; predicate_op; predicate_op;
      mov_x 7 0; mov_x 6 1; mov_x 2 2; mov_x 1 3; mov_x 8 4; mov_x 9 5;
      mov_from_sp 4;
      sub_imm X_TRANSLATOR_STACK 4 xt_stack_offset X_TMP_0 X_TMP_1]
  ++ (if mayiuse avx512_common
      then [x64_mov_imm reg_EVEX_max_8b_offt (2 * EVEX_max_8b_offt)]
      else []).

(** [postamble] with [DNNL_INDIRECT_JIT_AARCH64]. *)
Definition postamble : list a64_insn :=
  [add_sp 29 (xreg_len * 2);
   predicate_op; predicate_op; predicate_op]
  ++ (if vreg_to_preserve =? 0 then []
      else [ld4_d0_post 8 29 (vreg_len_preserve * 4);
            ld4_d0_post 12 29 (vreg_len_preserve * 4)])
  ++ map (fun p => ldp_post (fst p) (snd p) 29 (xreg_len * 2))
         (pairs abi_save_gpr_regs_aarch64)
  ++ [ldp_post_sp 29 30 preserved_stack_size;
      ret_].

End Prologue.

End JitA64.

(** * Properties *)

(** ** Machine integers *)

Lemma wrap_int_small (z : Z) : INT_MIN <= z <= INT_MAX -> wrap_int z = z.
Proof.
  unfold wrap_int, INT_MIN, INT_MAX. intros H.
  rewrite Z.mod_small; lia.
Qed.

Lemma wrap_size_t_small (z : Z) : 0 <= z < 2 ^ 64 -> wrap_size_t z = z.
Proof. intros H. unfold wrap_size_t. now apply Z.mod_small. Qed.

(** ** The GEMM dispatcher *)

Module GemmFacts.

Import Gemm.

(** The two recognised transpose symbols, in either case. *)
Definition transpose_flags : list ascii := ["T"; "t"; "N"; "n"]%char.

(** Whether a flag asks for the transposed operand. *)
Definition transposed (flag : ascii) : bool :=
  Ascii.eqb flag "T" || Ascii.eqb flag "t".

(** The stride invariant of the spec: each leading dimension is at least
    [max(1, rows of the operand after its transpose flag)]. *)
Definition strides_ok (ta tb : ascii) (m n k la lb lc : Z) : Prop :=
  Z.max 1 (if transposed ta then k else m) <= la
  /\ Z.max 1 (if transposed tb then n else k) <= lb
  /\ Z.max 1 m <= lc.

(** Flags, extents and leading dimensions are all well formed. *)
Definition shape_ok (ta tb : ascii) (m n k la lb lc : Z) : Prop :=
  In ta transpose_flags /\ In tb transpose_flags
  /\ 0 <= m /\ 0 <= n /\ 0 <= k
  /\ strides_ok ta tb m n k la lb lc.

Lemma one_of_In (c : ascii) (cs : list ascii) :
  one_of c cs = true <-> In c cs.
Proof.
  unfold one_of. rewrite existsb_exists. split.
  - intros [x [Hin Heq]]. apply Ascii.eqb_eq in Heq. now subst.
  - intros Hin. exists c. split; [assumption | apply Ascii.eqb_refl].
Qed.

Lemma one_of_Tt (c : ascii) : one_of c ["T"; "t"]%char = transposed c.
Proof. unfold one_of, transposed. simpl. now rewrite orb_false_r. Qed.

(** [check_gemm_input] on non-null scalars, as one boolean test per stage. *)
Lemma check_gemm_input_scalars (ta tb : ascii) (m n k la lb lc : Z)
    (al be : float) (with_bias : bool) :
  check_gemm_input (Some ta) (Some tb) (Some m) (Some n) (Some k)
    (Some la) (Some lb) (Some lc) (Some al) (Some be) with_bias
  = if with_bias && float_ne_zero be then mkldnn_unimplemented
    else if one_of ta transpose_flags && one_of tb transpose_flags
            && (0 <=? m) && (0 <=? n) && (0 <=? k)
    then if (Z.max 1 (if transposed ta then k else m) <=? la)
            && (Z.max 1 (if transposed tb then n else k) <=? lb)
            && (Z.max 1 m <=? lc)
         then mkldnn_success else mkldnn_invalid_arguments
    else mkldnn_invalid_arguments.
Proof.
  unfold check_gemm_input, transpose_flags. rewrite !one_of_Tt.
  destruct (with_bias && float_ne_zero be); [reflexivity|].
  cbv zeta. rewrite !andb_true_l.
  generalize ((Z.max 1 (if transposed ta then k else m) <=? la)
              && (Z.max 1 (if transposed tb then n else k) <=? lb)
              && (Z.max 1 m <=? lc)).
  generalize (one_of ta ["T"; "t"; "N"; "n"]%char
              && one_of tb ["T"; "t"; "N"; "n"]%char
              && (0 <=? m) && (0 <=? n) && (0 <=? k)).
  intros [|] [|]; reflexivity.
Qed.

Lemma shape_test_spec (ta tb : ascii) (m n k : Z) :
  one_of ta transpose_flags && one_of tb transpose_flags
  && (0 <=? m) && (0 <=? n) && (0 <=? k) = true
  <-> In ta transpose_flags /\ In tb transpose_flags
      /\ 0 <= m /\ 0 <= n /\ 0 <= k.
Proof.
  rewrite !andb_true_iff, !one_of_In, !Z.leb_le. tauto.
Qed.

Lemma strides_test_spec (ta tb : ascii) (m n k la lb lc : Z) :
  (Z.max 1 (if transposed ta then k else m) <=? la)
  && (Z.max 1 (if transposed tb then n else k) <=? lb)
  && (Z.max 1 m <=? lc) = true
  <-> strides_ok ta tb m n k la lb lc.
Proof.
  unfold strides_ok. rewrite !andb_true_iff, !Z.leb_le. tauto.
Qed.

(** The outcome of [check_gemm_input] on non-null scalars, stage by
    stage. *)
Lemma check_gemm_input_cases (ta tb : ascii) (m n k la lb lc : Z)
    (al be : float) (with_bias : bool) :
  let status :=
    check_gemm_input (Some ta) (Some tb) (Some m) (Some n) (Some k)
      (Some la) (Some lb) (Some lc) (Some al) (Some be) with_bias in
  (with_bias && float_ne_zero be = true -> status = mkldnn_unimplemented)
  /\ (with_bias && float_ne_zero be = false ->
      (shape_ok ta tb m n k la lb lc -> status = mkldnn_success)
      /\ (~ shape_ok ta tb m n k la lb lc ->
          status = mkldnn_invalid_arguments)).
Proof.
  intros status. subst status. rewrite check_gemm_input_scalars.
  pose proof (shape_test_spec ta tb m n k) as Hs.
  pose proof (strides_test_spec ta tb m n k la lb lc) as Ht.
  unfold shape_ok.
  destruct (with_bias && float_ne_zero be).
  - split; [reflexivity | discriminate].
  - split; [discriminate | intros _].
    destruct (one_of ta transpose_flags && one_of tb transpose_flags
              && (0 <=? m) && (0 <=? n) && (0 <=? k)).
    + destruct ((Z.max 1 (if transposed ta then k else m) <=? la)
                && (Z.max 1 (if transposed tb then n else k) <=? lb)
                && (Z.max 1 m <=? lc)).
      * split; [reflexivity|]. intros Hn. exfalso. apply Hn.
        destruct Hs as [Hs _], Ht as [Ht _].
        specialize (Hs eq_refl). specialize (Ht eq_refl). tauto.
      * split; [|reflexivity]. intros Hok. exfalso.
        assert (false = true) by (apply Ht; tauto). discriminate.
    + split; [|reflexivity]. intros Hok. exfalso.
      assert (false = true) by (apply Hs; tauto). discriminate.
Qed.

(** C1.  With non-null scalar pointers and no bias: for transpose flags
    among 'N', 'n', 'T', 't' and non-negative M, N, K, [check_gemm_input]
    returns Success exactly when [lda >= max(1, rows of A)] (K when A is
    transposed, else M), [ldb >= max(1, rows of B)] (N when B is transposed,
    else K) and [ldc >= max(1, M)], and InvalidArguments otherwise; a
    transpose character outside those four, or a negative extent, yields
    InvalidArguments. *)
Theorem check_gemm_input_accepts_iff
    (ta tb : ascii) (m n k la lb lc : Z) (al be : float) :
  let status :=
    check_gemm_input (Some ta) (Some tb) (Some m) (Some n) (Some k)
      (Some la) (Some lb) (Some lc) (Some al) (Some be) false in
  (In ta transpose_flags -> In tb transpose_flags ->
   0 <= m -> 0 <= n -> 0 <= k ->
   (status = mkldnn_success <-> strides_ok ta tb m n k la lb lc)
   /\ (status = mkldnn_success \/ status = mkldnn_invalid_arguments))
  /\ (~ In ta transpose_flags \/ ~ In tb transpose_flags
      \/ m < 0 \/ n < 0 \/ k < 0 ->
      status = mkldnn_invalid_arguments).
Proof.
  intros status.
  destruct (check_gemm_input_cases ta tb m n k la lb lc al be false)
    as [_ Hc].
  destruct (Hc eq_refl) as [Hyes Hno]. fold status in Hyes, Hno.
  split.
  - intros Ha Hb Hm Hn Hk.
    assert (Hdec : strides_ok ta tb m n k la lb lc
                   \/ ~ strides_ok ta tb m n k la lb lc).
    { unfold strides_ok. lia. }
    destruct Hdec as [Hok | Hbad].
    + assert (Hs : status = mkldnn_success)
        by (apply Hyes; unfold shape_ok; tauto).
      split; [tauto | now left].
    + assert (Hs : status = mkldnn_invalid_arguments)
        by (apply Hno; unfold shape_ok; tauto).
      split; [|now right]. rewrite Hs. split; [discriminate | tauto].
  - intros Hbad. apply Hno. unfold shape_ok.
    intros [Ha [Hb [Hm [Hn [Hk _]]]]].
    destruct Hbad as [H | [H | [H | [H | H]]]]; try contradiction; lia.
Qed.

(** A well-formed request: N-by-T, M = 2, N = 3, K = 4, tight strides. *)
Lemma check_gemm_input_accepts_iff_witness :
  check_gemm_input (Some "N"%char) (Some "T"%char) (Some 2) (Some 3)
    (Some 4) (Some 2) (Some 3) (Some 2) (Some float_one) (Some float_zero)
    false = mkldnn_success.
Proof.
  apply (proj1 (check_gemm_input_accepts_iff "N" "T" 2 3 4 2 3 2
                  float_one float_zero)).
  - simpl; tauto.
  - simpl; tauto.
  - lia.
  - lia.
  - lia.
  - unfold strides_ok; simpl; lia.
Defined.

(** *** Requests as the entry points see them *)

(** The values behind the ten scalar-parameter pointers. *)
Record scalars : Type := {
  v_transa : ascii;  v_transb : ascii;
  v_M : Z;  v_N : Z;  v_K : Z;
  v_lda : Z;  v_ldb : Z;  v_ldc : Z;
  v_alpha : float;  v_beta : float
}.

(** All ten scalar-parameter pointers are non-null and point to [s]. *)
Definition scalars_of (a : sgemm_args) (s : scalars) : Prop :=
  transa a = Some (v_transa s) /\ transb a = Some (v_transb s)
  /\ M a = Some (v_M s) /\ N a = Some (v_N s) /\ K a = Some (v_K s)
  /\ lda a = Some (v_lda s) /\ ldb a = Some (v_ldb s)
  /\ ldc a = Some (v_ldc s)
  /\ alpha a = Some (v_alpha s) /\ beta a = Some (v_beta s).

(** One of the ten scalar-parameter pointers is null. *)
Definition any_scalar_null (a : sgemm_args) : Prop :=
  transa a = None \/ transb a = None
  \/ M a = None \/ N a = None \/ K a = None
  \/ lda a = None \/ ldb a = None \/ ldc a = None
  \/ alpha a = None \/ beta a = None.

Definition scalars_shape_ok (s : scalars) : Prop :=
  shape_ok (v_transa s) (v_transb s) (v_M s) (v_N s) (v_K s)
    (v_lda s) (v_ldb s) (v_ldc s).

(** A request with a null scalar pointer, a bad transpose flag, a negative
    extent or a bad leading dimension. *)
Definition malformed (a : sgemm_args) : Prop :=
  any_scalar_null a \/ exists s, scalars_of a s /\ ~ scalars_shape_ok s.

(** The thirteen arguments an integer request shares with a real one. *)
Definition as_sgemm (a : igemm_args) : sgemm_args :=
  {| transa := i_transa a; transb := i_transb a;
     M := i_M a; N := i_N a; K := i_K a;
     alpha := i_alpha a;
     A := i_A a; lda := i_LDA a;
     B := i_B a; ldb := i_LDB a;
     beta := i_beta a;
     C := i_C a; ldc := i_LDC a |}.

(** The offset-mode pointer is null or names none of the three modes. *)
Definition bad_offsetc (a : igemm_args) : Prop :=
  match i_offsetc a with
  | None => True
  | Some oc => ~ In oc ["F"; "f"; "C"; "c"; "R"; "r"]%char
  end.

(** A machine with no capability and no vendor library, whose kernels
    succeed without touching memory: enough to run the entry points on
    concrete requests. *)
Definition plain_platform (isa : cpu_isa_t -> bool) : platform :=
  {| mem := unit;
     USE_CBLAS := false; USE_MKL_IGEMM := false; ARM_ARCH := true;
     mayiuse := isa;
     mkldnn_get_num_threads := 1;
     extern := fun _ h => (mkldnn_success, h) |}.

Definition no_isa : cpu_isa_t -> bool := fun _ => false.

Definition empty_world (isa : cpu_isa_t -> bool)
  : world (plain_platform isa) :=
  {| heap := tt : mem (plain_platform isa); called := [] |}.

(** A 2-by-2-by-2 request with the given flag, extent pointer and beta. *)
Definition small_request (ta : option ascii) (m : option Z) (be : float)
  : sgemm_args :=
  {| transa := ta; transb := Some "N"%char;
     M := m; N := Some 2; K := Some 2;
     alpha := Some float_one;
     A := Some 0; lda := Some 2;
     B := Some 64; ldb := Some 2;
     beta := Some be;
     C := Some 128; ldc := Some 2 |}.

(** An integer request with the given extent [M] and data pointers. *)
Definition small_irequest (m : Z) (data : ptr) (ao bo : option Z)
  : igemm_args :=
  {| i_transa := Some "N"%char; i_transb := Some "N"%char;
     i_offsetc := Some "F"%char;
     i_M := Some m; i_N := Some 2; i_K := Some 2;
     i_alpha := Some float_one;
     i_A := data; i_LDA := Some 2; i_ao := ao;
     i_B := data; i_LDB := Some 2; i_bo := bo;
     i_beta := Some float_zero;
     i_C := data; i_LDC := Some 2;
     i_co := data |}.

Lemma check_sgemm_args_scalars (a : sgemm_args) (s : scalars)
    (with_bias : bool) :
  scalars_of a s ->
  check_sgemm_args a with_bias
  = check_gemm_input (Some (v_transa s)) (Some (v_transb s))
      (Some (v_M s)) (Some (v_N s)) (Some (v_K s))
      (Some (v_lda s)) (Some (v_ldb s)) (Some (v_ldc s))
      (Some (v_alpha s)) (Some (v_beta s)) with_bias.
Proof.
  unfold scalars_of, check_sgemm_args.
  intros (-> & -> & -> & -> & -> & -> & -> & -> & -> & ->). reflexivity.
Qed.

(** A status other than InvalidArguments is only produced once all ten
    scalar pointers have passed the null test. *)
Lemma check_sgemm_args_not_invalid (a : sgemm_args) (with_bias : bool) :
  check_sgemm_args a with_bias <> mkldnn_invalid_arguments ->
  exists s, scalars_of a s.
Proof.
  unfold check_sgemm_args, check_gemm_input, scalars_of.
  destruct (transa a) as [ta|]; [|intros H; now exfalso].
  destruct (transb a) as [tb|]; [|intros H; now exfalso].
  destruct (M a) as [m|]; [|intros H; now exfalso].
  destruct (N a) as [n|]; [|intros H; now exfalso].
  destruct (K a) as [k|]; [|intros H; now exfalso].
  destruct (lda a) as [la|]; [|intros H; now exfalso].
  destruct (ldb a) as [lb|]; [|intros H; now exfalso].
  destruct (ldc a) as [lc|]; [|intros H; now exfalso].
  destruct (alpha a) as [al|]; [|intros H; now exfalso].
  destruct (beta a) as [be|]; [|intros H; now exfalso].
  intros _.
  exists {| v_transa := ta; v_transb := tb; v_M := m; v_N := n; v_K := k;
            v_lda := la; v_ldb := lb; v_ldc := lc;
            v_alpha := al; v_beta := be |}.
  simpl. repeat split.
Qed.

Lemma scalars_not_null (a : sgemm_args) (s : scalars) :
  scalars_of a s -> ~ any_scalar_null a.
Proof.
  unfold scalars_of, any_scalar_null.
  intros (H1 & H2 & H3 & H4 & H5 & H6 & H7 & H8 & H9 & H10) Hn.
  repeat (destruct Hn as [Hn | Hn]; [congruence|]). congruence.
Qed.

Lemma check_sgemm_args_null (a : sgemm_args) (with_bias : bool) :
  any_scalar_null a ->
  check_sgemm_args a with_bias = mkldnn_invalid_arguments.
Proof.
  intros Hn.
  destruct (check_sgemm_args a with_bias) eqn:E; try reflexivity;
    destruct (check_sgemm_args_not_invalid a with_bias) as [s Hs];
    try (rewrite E; discriminate);
    exfalso; exact (scalars_not_null a s Hs Hn).
Qed.

(** Without a bias the validation never answers Unimplemented. *)
Lemma check_sgemm_args_malformed (a : sgemm_args) :
  malformed a -> check_sgemm_args a false = mkldnn_invalid_arguments.
Proof.
  intros [Hn | [s [Hs Hbad]]].
  - now apply check_sgemm_args_null.
  - rewrite (check_sgemm_args_scalars a s false Hs).
    destruct (check_gemm_input_cases (v_transa s) (v_transb s) (v_M s)
                (v_N s) (v_K s) (v_lda s) (v_ldb s) (v_ldc s)
                (v_alpha s) (v_beta s) false) as [_ Hc].
    destruct (Hc eq_refl) as [_ Hno]. now apply Hno.
Qed.

Lemma check_igemm_args_unfold (a : igemm_args) :
  check_igemm_args a
  = match i_offsetc a with
    | None => mkldnn_invalid_arguments
    | Some oc =>
        if negb (one_of oc ["F"; "f"; "C"; "c"; "R"; "r"]%char)
        then mkldnn_invalid_arguments
        else check_sgemm_args (as_sgemm a) false
    end.
Proof. reflexivity. Qed.

Lemma check_igemm_args_malformed (a : igemm_args) :
  bad_offsetc a \/ malformed (as_sgemm a) ->
  check_igemm_args a = mkldnn_invalid_arguments.
Proof.
  rewrite check_igemm_args_unfold. unfold bad_offsetc.
  destruct (i_offsetc a) as [oc|]; [|reflexivity].
  destruct (one_of oc ["F"; "f"; "C"; "c"; "R"; "r"]%char) eqn:E; simpl.
  - intros [Hbad | Hm].
    + apply one_of_In in E. contradiction.
    + now apply check_sgemm_args_malformed.
  - reflexivity.
Qed.

Lemma check_igemm_args_success (a : igemm_args) :
  check_igemm_args a = mkldnn_success ->
  exists s, scalars_of (as_sgemm a) s /\ scalars_shape_ok s.
Proof.
  rewrite check_igemm_args_unfold.
  destruct (i_offsetc a) as [oc|]; [|discriminate].
  destruct (negb (one_of oc ["F"; "f"; "C"; "c"; "R"; "r"]%char));
    [discriminate|].
  intros E.
  destruct (check_sgemm_args_not_invalid (as_sgemm a) false) as [s Hs];
    [rewrite E; discriminate|].
  exists s. split; [assumption|].
  rewrite (check_sgemm_args_scalars _ s false Hs) in E.
  destruct (check_gemm_input_cases (v_transa s) (v_transb s) (v_M s)
              (v_N s) (v_K s) (v_lda s) (v_ldb s) (v_ldc s)
              (v_alpha s) (v_beta s) false) as [_ Hc].
  destruct (Hc eq_refl) as [_ Hno].
  assert (Hdec : scalars_shape_ok s \/ ~ scalars_shape_ok s).
  { unfold scalars_shape_ok, shape_ok, strides_ok, transpose_flags.
    destruct (in_dec ascii_dec (v_transa s) ["T"; "t"; "N"; "n"]%char);
      destruct (in_dec ascii_dec (v_transb s) ["T"; "t"; "N"; "n"]%char);
      try tauto.
    destruct (Z_le_dec 0 (v_M s)); [|tauto].
    destruct (Z_le_dec 0 (v_N s)); [|tauto].
    destruct (Z_le_dec 0 (v_K s)); [|tauto].
    destruct (Z_le_dec (Z.max 1 (if transposed (v_transa s)
                                 then v_K s else v_M s)) (v_lda s));
      [|tauto].
    destruct (Z_le_dec (Z.max 1 (if transposed (v_transb s)
                                 then v_N s else v_K s)) (v_ldb s));
      [|tauto].
    destruct (Z_le_dec (Z.max 1 (v_M s)) (v_ldc s)); tauto. }
  destruct Hdec as [Hok | Hbad]; [assumption|].
  specialize (Hno Hbad). unfold scalars_shape_ok in *. congruence.
Qed.

(** *** Rejected requests leave no trace *)

Section Entry.

Variable P : platform.

Lemma extended_sgemm_rejected (a : sgemm_args) (bias : ptr) (force : bool)
    (w : world P) (status : mkldnn_status_t) :
  check_sgemm_args a (negb (is_null bias)) = status ->
  status <> mkldnn_success ->
  extended_sgemm P a bias force w = Some (status, w).
Proof.
  intros E Hne. unfold extended_sgemm. rewrite E.
  destruct status; [congruence | reflexivity | reflexivity].
Qed.

Lemma bf16_rejected (a : sgemm_args) (w : world P)
    (status : mkldnn_status_t) :
  check_sgemm_args a false = status ->
  status <> mkldnn_success ->
  mkldnn_gemm_bf16bf16f32 P a w = Some (status, w).
Proof.
  intros E Hne. unfold mkldnn_gemm_bf16bf16f32. rewrite E.
  destruct status; [congruence | reflexivity | reflexivity].
Qed.

Lemma gemm_s8x8s32_u8_rejected (a : igemm_args) (w : world P)
    (status : mkldnn_status_t) :
  check_igemm_args a = status ->
  status <> mkldnn_success ->
  gemm_s8x8s32_u8 P a w = Some (status, w).
Proof.
  intros E Hne. unfold gemm_s8x8s32_u8. rewrite E.
  destruct status; [congruence | reflexivity | reflexivity].
Qed.

Lemma gemm_s8x8s32_s8_rejected (a : igemm_args) (w : world P)
    (status : mkldnn_status_t) :
  check_igemm_args a = status ->
  status <> mkldnn_success ->
  gemm_s8x8s32_s8 P a w = Some (status, w).
Proof.
  intros E Hne. unfold gemm_s8x8s32_s8. rewrite E.
  destruct status; [congruence | reflexivity | reflexivity].
Qed.

(** The validation of [extended_sgemm] on non-null scalars with a bias and
    a non-zero beta. *)
Lemma check_bias_beta (a : sgemm_args) (bias : ptr) (s : scalars) :
  scalars_of a s -> bias <> None -> float_ne_zero (v_beta s) = true ->
  check_sgemm_args a (negb (is_null bias)) = mkldnn_unimplemented.
Proof.
  intros Hs Hb Hbeta.
  rewrite (check_sgemm_args_scalars a s _ Hs).
  apply check_gemm_input_cases.
  destruct bias; [|congruence]. simpl. assumption.
Qed.

(** C3, as the code has it.  Validation runs in three stages, all before
    any kernel is called or memory touched: the null test on the ten scalar
    pointers (InvalidArguments), then, on [extended_sgemm], the test for a
    bias with a non-zero beta (Unimplemented), then flags, extents and
    leading dimensions (InvalidArguments).  So a malformed request is
    answered Unimplemented exactly when its scalar pointers are all
    non-null, a bias is given and beta is not 0, and InvalidArguments
    otherwise; on the entry points without a bias (the two integer ones,
    where the offset mode is tested first, [mkldnn_sgemm] and the bf16 one)
    it is always answered InvalidArguments. *)
Theorem validation_order (w : world P) :
  (forall (a : sgemm_args) (bias : ptr) (force : bool),
      malformed a ->
      exists status,
        extended_sgemm P a bias force w = Some (status, w)
        /\ (status = mkldnn_unimplemented
            <-> exists s, scalars_of a s /\ bias <> None
                          /\ float_ne_zero (v_beta s) = true)
        /\ (status <> mkldnn_unimplemented
            -> status = mkldnn_invalid_arguments))
  /\ (forall a : igemm_args,
         bad_offsetc a \/ malformed (as_sgemm a) ->
         mkldnn_gemm_s8u8s32 P a w = Some (mkldnn_invalid_arguments, w)
         /\ mkldnn_gemm_s8s8s32 P a w = Some (mkldnn_invalid_arguments, w))
  /\ (forall a : sgemm_args,
         malformed a ->
         mkldnn_sgemm P a w = Some (mkldnn_invalid_arguments, w)
         /\ mkldnn_gemm_bf16bf16f32 P a w
            = Some (mkldnn_invalid_arguments, w)).
Proof.
  split; [|split].
  - intros a bias force Hm.
    destruct (check_sgemm_args a (negb (is_null bias))) eqn:E.
    + (* accepted: impossible for a malformed request *)
      exfalso. destruct Hm as [Hn | [s [Hs Hbad]]].
      * rewrite (check_sgemm_args_null a _ Hn) in E. discriminate.
      * rewrite (check_sgemm_args_scalars a s _ Hs) in E.
        destruct (check_gemm_input_cases (v_transa s) (v_transb s)
                    (v_M s) (v_N s) (v_K s) (v_lda s) (v_ldb s) (v_ldc s)
                    (v_alpha s) (v_beta s) (negb (is_null bias)))
          as [Hu Hc].
        destruct (negb (is_null bias) && float_ne_zero (v_beta s)).
        -- rewrite (Hu eq_refl) in E. discriminate.
        -- destruct (Hc eq_refl) as [_ Hno].
           unfold scalars_shape_ok in Hbad.
           rewrite (Hno Hbad) in E. discriminate.
    + exists mkldnn_invalid_arguments. split; [|split].
      * apply extended_sgemm_rejected; [assumption | discriminate].
      * split; [discriminate|].
        intros [s [Hs [Hb Hbeta]]].
        rewrite (check_bias_beta a bias s Hs Hb Hbeta) in E. discriminate.
      * reflexivity.
    + exists mkldnn_unimplemented. split; [|split].
      * apply extended_sgemm_rejected; [assumption | discriminate].
      * split; [intros _ | reflexivity].
        destruct (check_sgemm_args_not_invalid a (negb (is_null bias)))
          as [s Hs]; [rewrite E; discriminate|].
        exists s. split; [assumption|].
        rewrite (check_sgemm_args_scalars a s _ Hs) in E.
        rewrite check_gemm_input_scalars in E.
        destruct bias as [b|]; simpl in E.
        -- split; [discriminate|].
           destruct (float_ne_zero (v_beta s)); [reflexivity|].
           repeat match type of E with
                  | (if ?c then _ else _) = _ => destruct c
                  end; discriminate.
        -- repeat match type of E with
                  | (if ?c then _ else _) = _ => destruct c
                  end; discriminate.
      * congruence.
  - intros a Hm. unfold mkldnn_gemm_s8u8s32, mkldnn_gemm_s8s8s32.
    pose proof (check_igemm_args_malformed a Hm) as E.
    split; [apply gemm_s8x8s32_u8_rejected | apply gemm_s8x8s32_s8_rejected];
      assumption || discriminate.
  - intros a Hm. pose proof (check_sgemm_args_malformed a Hm) as E.
    split.
    + unfold mkldnn_sgemm. apply extended_sgemm_rejected;
        [exact E | discriminate].
    + apply bf16_rejected; [exact E | discriminate].
Qed.

(** C5, as the code has it.  On [extended_sgemm], the entry point that
    takes a bias, a request whose ten scalar pointers are all non-null,
    with a non-null bias and beta not equal to 0, is rejected with
    Unimplemented whatever its flags, extents and strides are; no kernel is
    called and memory is left as it was.  (With a null scalar pointer the
    null test comes first and answers InvalidArguments.) *)
Theorem bias_with_beta_unimplemented (a : sgemm_args) (bias : ptr)
    (force : bool) (w : world P) (s : scalars) :
  scalars_of a s -> bias <> None -> float_ne_zero (v_beta s) = true ->
  extended_sgemm P a bias force w = Some (mkldnn_unimplemented, w).
Proof.
  intros Hs Hb Hbeta. apply extended_sgemm_rejected; [|discriminate].
  now apply (check_bias_beta a bias s).
Qed.

(** C6, as the code has it.  On every entry point a request in which one
    of the scalar-parameter pointers transa, transb, M, N, K, lda, ldb, ldc,
    alpha, beta (and, on the integer entry points, offsetc) is null returns
    InvalidArguments, calls no kernel and leaves memory as it was.  The
    data pointers A, B, C are not tested. *)
Theorem null_scalar_pointer_invalid (w : world P) :
  (forall (a : sgemm_args) (bias : ptr) (force : bool),
      any_scalar_null a ->
      extended_sgemm P a bias force w = Some (mkldnn_invalid_arguments, w))
  /\ (forall a : sgemm_args,
         any_scalar_null a ->
         mkldnn_sgemm P a w = Some (mkldnn_invalid_arguments, w)
         /\ mkldnn_gemm_bf16bf16f32 P a w
            = Some (mkldnn_invalid_arguments, w))
  /\ (forall a : igemm_args,
         i_offsetc a = None \/ any_scalar_null (as_sgemm a) ->
         mkldnn_gemm_s8u8s32 P a w = Some (mkldnn_invalid_arguments, w)
         /\ mkldnn_gemm_s8s8s32 P a w
            = Some (mkldnn_invalid_arguments, w)).
Proof.
  split; [|split].
  - intros a bias force Hn. apply extended_sgemm_rejected; [|discriminate].
    now apply check_sgemm_args_null.
  - intros a Hn. split.
    + unfold mkldnn_sgemm. apply extended_sgemm_rejected; [|discriminate].
      now apply check_sgemm_args_null.
    + apply bf16_rejected; [|discriminate]. now apply check_sgemm_args_null.
  - intros a Hn.
    assert (E : check_igemm_args a = mkldnn_invalid_arguments).
    { apply check_igemm_args_malformed. destruct Hn as [Hn | Hn].
      - left. unfold bad_offsetc. now rewrite Hn.
      - right. now left. }
    unfold mkldnn_gemm_s8u8s32, mkldnn_gemm_s8s8s32.
    split; [apply gemm_s8x8s32_u8_rejected | apply gemm_s8x8s32_s8_rejected];
      assumption || discriminate.
Qed.

(** The kernel [extended_sgemm] hands a validated request to when the
    vendor BLAS is not used. *)
Definition sgemm_kernel (a : sgemm_args) (bias : ptr) (force : bool) : call :=
  if negb (ARM_ARCH P) && mayiuse P avx512_mic
  then jit_avx512_common_gemm_f32 a bias
  else if negb (ARM_ARCH P) && mayiuse P avx
  then gemm_driver_f32 (if negb (is_null bias) then Some "C"%char else None)
         a bias force
  else ref_gemm_f32 a bias.

(** C4, as the code has it.  The two integer entry points, given a request
    that passes validation and has M = 0 or N = 0 or K = 0, return Success
    at once: no kernel is called and memory, the output buffer C included,
    is left as it was.  The other entry points have no such early return:
    [extended_sgemm] (outside the vendor-BLAS route) hands every validated
    request to the kernel selected by capability and returns what that
    kernel returns, and the bf16 entry point calls the generated kernel
    when avx512_core is there and returns Unimplemented otherwise. *)
Theorem zero_extent_early_return (w : world P) :
  (forall a : igemm_args,
      check_igemm_args a = mkldnn_success ->
      i_M a = Some 0 \/ i_N a = Some 0 \/ i_K a = Some 0 ->
      mkldnn_gemm_s8u8s32 P a w = Some (mkldnn_success, w)
      /\ mkldnn_gemm_s8s8s32 P a w = Some (mkldnn_success, w))
  /\ (forall (a : sgemm_args) (bias : ptr) (force : bool),
         check_sgemm_args a (negb (is_null bias)) = mkldnn_success ->
         USE_CBLAS P && negb force = false ->
         extended_sgemm P a bias force w
         = invoke (sgemm_kernel a bias force) w)
  /\ (forall a : sgemm_args,
         check_sgemm_args a false = mkldnn_success ->
         mkldnn_gemm_bf16bf16f32 P a w
         = if mayiuse P avx512_core then invoke (gemm_driver_bf16 a) w
           else Some (mkldnn_unimplemented, w)).
Proof.
  split; [|split].
  - intros a E Hz.
    destruct (check_igemm_args_success a E) as [s [Hs _]].
    destruct Hs as (_ & _ & HM & HN & HK & _). simpl in HM, HN, HK.
    assert (Hzero : (v_M s =? 0) || (v_N s =? 0) || (v_K s =? 0) = true).
    { rewrite !orb_true_iff, !Z.eqb_eq.
      destruct Hz as [H | [H | H]]; [left; left | left; right | right];
        congruence. }
    unfold mkldnn_gemm_s8u8s32, mkldnn_gemm_s8s8s32,
      gemm_s8x8s32_u8, gemm_s8x8s32_s8.
    rewrite E. simpl. unfold bind, deref. rewrite HM, HN, HK, Hzero.
    split; reflexivity.
  - intros a bias force E Hc. unfold extended_sgemm, sgemm_kernel.
    rewrite E, Hc. simpl.
    destruct (negb (ARM_ARCH P) && mayiuse P avx512_mic); [reflexivity|].
    destruct (negb (ARM_ARCH P) && mayiuse P avx); reflexivity.
  - intros a E. unfold mkldnn_gemm_bf16bf16f32. rewrite E. simpl.
    destruct (mayiuse P avx512_core); reflexivity.
Qed.

(** The route of the signed-times-signed path as the code takes it.  For a
    request that passes validation with M, N, K all non-zero (and readable
    zero-points), exactly one kernel is called: the generated-kernel driver
    exactly when avx512_core is present and the product of M and N, taken
    in [int], exceeds 1; otherwise the simplified kernel exactly when ao and
    bo are both 0 and, in builds without the vendor integer GEMM,
    avx512_core is present; otherwise the reference kernel.  The [int]
    product is the mathematical one whenever that fits in an [int]. *)
Theorem gemm_s8s8s32_route (a : igemm_args) (w : world P)
    (m n k ao bo : Z) :
  check_igemm_args a = mkldnn_success ->
  i_M a = Some m -> i_N a = Some n -> i_K a = Some k ->
  m <> 0 -> n <> 0 -> k <> 0 ->
  i_ao a = Some ao -> i_bo a = Some bo ->
  let use_jit := mayiuse P avx512_core = true /\ 1 < int_mul m n in
  let use_s8u8 :=
    ao = 0 /\ bo = 0
    /\ (USE_MKL_IGEMM P = false -> mayiuse P avx512_core = true) in
  (exists c : call,
      gemm_s8x8s32_s8 P a w = invoke c w
      /\ (c = gemm_driver_s8s8 a <-> use_jit)
      /\ (c = simple_gemm_s8s8s32 a <-> ~ use_jit /\ use_s8u8)
      /\ (c = ref_gemm_s8s8s32 a <-> ~ use_jit /\ ~ use_s8u8))
  /\ (m * n <= INT_MAX -> int_mul m n = m * n).
Proof.
  intros E HM HN HK Hm Hn Hk Hao Hbo use_jit use_s8u8.
  subst use_jit use_s8u8. split.
  - unfold gemm_s8x8s32_s8. rewrite E.
    cbn [status_eqb negb]. unfold bind, deref.
    rewrite HM, HN, HK.
    apply Z.eqb_neq in Hm, Hn, Hk. rewrite Hm, Hn, Hk.
    cbn [orb]. rewrite Hao, Hbo.
    unfold IMPLICATION, everyone_is. cbn [forallb]. rewrite !andb_true_l.
    destruct (mayiuse P avx512_core) eqn:Emay;
      destruct (Z.ltb_spec 1 (int_mul m n));
      destruct (Z.eqb_spec 0 ao); destruct (Z.eqb_spec 0 bo);
      destruct (USE_MKL_IGEMM P) eqn:Emkl; cbn [andb orb negb];
      eexists; (split; [reflexivity|]);
      repeat split; intros; try discriminate; try lia; try congruence;
      intuition (try discriminate; try lia; try congruence).
  - intros Hfit.
    destruct (check_igemm_args_success a E) as [s [Hs Hok]].
    destruct Hs as (_ & _ & HM' & HN' & _). simpl in HM', HN'.
    destruct Hok as (_ & _ & Hm0 & Hn0 & _).
    assert (v_M s = m) by congruence. assert (v_N s = n) by congruence.
    subst m n. unfold int_mul. apply wrap_int_small.
    unfold INT_MIN. unfold INT_MAX in *. nia.
Qed.

End Entry.

(** *** The entry points on concrete requests *)

Definition all_isa : cpu_isa_t -> bool := fun _ => true.

Definition scalars_of_small (ta : ascii) (m : Z) (be : float) : scalars :=
  {| v_transa := ta; v_transb := "N"%char;
     v_M := m; v_N := 2; v_K := 2;
     v_lda := 2; v_ldb := 2; v_ldc := 2;
     v_alpha := float_one; v_beta := be |}.

Lemma small_request_scalars (ta : ascii) (m : Z) (be : float) :
  scalars_of (small_request (Some ta) (Some m) be)
    (scalars_of_small ta m be).
Proof. unfold scalars_of. simpl. repeat split. Qed.

Lemma flag_X_malformed :
  malformed (small_request (Some "X"%char) (Some 2) float_one).
Proof.
  right. exists (scalars_of_small "X" 2 float_one).
  split; [apply small_request_scalars|].
  unfold scalars_shape_ok, shape_ok, transpose_flags. simpl.
  intros [[H | [H | [H | [H | []]]]] _]; discriminate.
Qed.

(** A 2-by-2 signed request with zero zero-points on an avx512_core
    machine goes to the generated-kernel driver. *)
Lemma gemm_s8s8s32_route_witness :
  let a := small_irequest 2 (Some 0) (Some 0) (Some 0) in
  exists c : call,
    gemm_s8x8s32_s8 (plain_platform all_isa) a (empty_world all_isa)
    = invoke c (empty_world all_isa)
    /\ c = gemm_driver_s8s8 a.
Proof.
  intros a.
  destruct (gemm_s8s8s32_route (plain_platform all_isa) a
              (empty_world all_isa) 2 2 2 0 0)
    as [[c [Hrun [Hjit _]]] _];
    try reflexivity; try lia.
  exists c. split; [exact Hrun|].
  apply Hjit. split; [reflexivity | vm_compute; reflexivity].
Defined.

(** A validated signed request with the given extents and zero-points; the
    leading dimensions are 65536. *)
Definition wide_irequest (m n k : Z) (ao bo : option Z) : igemm_args :=
  {| i_transa := Some "N"%char; i_transb := Some "N"%char;
     i_offsetc := Some "F"%char;
     i_M := Some m; i_N := Some n; i_K := Some k;
     i_alpha := Some float_one;
     i_A := Some 0; i_LDA := Some 65536; i_ao := ao;
     i_B := Some 0; i_LDB := Some 65536; i_bo := bo;
     i_beta := Some float_zero;
     i_C := Some 0; i_LDC := Some 65536;
     i_co := Some 0 |}.

(** C2.  The route of the signed-times-signed path departs from the stated
    rule where M*N does not fit in an [int].  The request with
    M = N = 65536, K = 1 and zero zero-points passes validation, avx512_core
    is present and M*N = 2^32 exceeds 1, so the generated-kernel driver is
    due; but the product is taken in [int], where it is 0, and the
    simplified kernel is called instead.  With a zero-point other than 0
    the same request goes to the reference kernel. *)
Lemma gemm_s8s8s32_route_overflow :
  let a := wide_irequest 65536 65536 1 (Some 0) (Some 0) in
  let a' := wide_irequest 65536 65536 1 (Some 1) (Some 0) in
  check_igemm_args a = mkldnn_success
  /\ mayiuse (plain_platform all_isa) avx512_core = true
  /\ 1 < 65536 * 65536
  /\ int_mul 65536 65536 = 0
  /\ gemm_s8x8s32_s8 (plain_platform all_isa) a (empty_world all_isa)
     = invoke (simple_gemm_s8s8s32 a) (empty_world all_isa)
  /\ simple_gemm_s8s8s32 a <> gemm_driver_s8s8 a
  /\ gemm_s8x8s32_s8 (plain_platform all_isa) a' (empty_world all_isa)
     = invoke (ref_gemm_s8s8s32 a') (empty_world all_isa)
  /\ ref_gemm_s8s8s32 a' <> gemm_driver_s8s8 a'.
Proof.
  intros a a'.
  split; [reflexivity |].
  split; [reflexivity |].
  split; [lia |].
  split; [reflexivity |].
  split; [reflexivity |].
  split; [discriminate |].
  split; [reflexivity | discriminate].
Qed.

(** The claim of C3 fails: a request with the transpose flag 'X', a bias
    and beta = 1 is malformed and is answered Unimplemented. *)
Lemma malformed_answered_unimplemented :
  let a := small_request (Some "X"%char) (Some 2) float_one in
  malformed a
  /\ extended_sgemm (plain_platform no_isa) a (Some 256) false
       (empty_world no_isa)
     = Some (mkldnn_unimplemented, empty_world no_isa).
Proof. split; [exact flag_X_malformed | reflexivity]. Qed.

(** The same malformed request without a bias is answered
    InvalidArguments. *)
Lemma validation_order_witness :
  let a := small_request (Some "X"%char) (Some 2) float_one in
  exists status,
    extended_sgemm (plain_platform no_isa) a None false (empty_world no_isa)
    = Some (status, empty_world no_isa)
    /\ status = mkldnn_invalid_arguments.
Proof.
  intros a.
  destruct (proj1 (validation_order (plain_platform no_isa)
                     (empty_world no_isa)) a None false flag_X_malformed)
    as [status [Hrun [Hu Hi]]].
  exists status. split; [exact Hrun|].
  apply Hi. intros Hs. apply Hu in Hs.
  destruct Hs as [s [_ [Hb _]]]. now apply Hb.
Defined.

(** The claim of C4 fails: the bf16 entry point, on a valid request with
    M = 0 and no avx512_core, returns Unimplemented. *)
Lemma bf16_zero_extent_unimplemented :
  let a := small_request (Some "N"%char) (Some 0) float_zero in
  check_sgemm_args a false = mkldnn_success
  /\ M a = Some 0
  /\ mkldnn_gemm_bf16bf16f32 (plain_platform no_isa) a (empty_world no_isa)
     = Some (mkldnn_unimplemented, empty_world no_isa).
Proof. repeat split. Qed.

(** An integer request with M = 0 returns Success with nothing called. *)
Lemma zero_extent_early_return_witness :
  let a := small_irequest 0 (Some 0) (Some 0) (Some 0) in
  mkldnn_gemm_s8u8s32 (plain_platform all_isa) a (empty_world all_isa)
  = Some (mkldnn_success, empty_world all_isa)
  /\ mkldnn_gemm_s8s8s32 (plain_platform all_isa) a (empty_world all_isa)
     = Some (mkldnn_success, empty_world all_isa).
Proof.
  intros a.
  apply (proj1 (zero_extent_early_return (plain_platform all_isa)
                  (empty_world all_isa)) a).
  - reflexivity.
  - left. reflexivity.
Defined.

(** The claim of C5 fails: with a bias and beta = 1 but a null pointer M,
    [extended_sgemm] answers InvalidArguments, not Unimplemented. *)
Lemma null_scalar_before_bias_test :
  let a := small_request (Some "N"%char) None float_one in
  let bias : ptr := Some 256 in
  bias <> None
  /\ beta a = Some float_one /\ float_ne_zero float_one = true
  /\ extended_sgemm (plain_platform no_isa) a bias false (empty_world no_isa)
     = Some (mkldnn_invalid_arguments, empty_world no_isa).
Proof. repeat split. discriminate. Qed.

(** A well-formed request with a bias and beta = 1 is answered
    Unimplemented. *)
Lemma bias_with_beta_unimplemented_witness :
  extended_sgemm (plain_platform no_isa)
    (small_request (Some "N"%char) (Some 2) float_one) (Some 256) false
    (empty_world no_isa)
  = Some (mkldnn_unimplemented, empty_world no_isa).
Proof.
  apply (bias_with_beta_unimplemented (plain_platform no_isa) _ _ _ _
           (scalars_of_small "N" 2 float_one)).
  - apply small_request_scalars.
  - discriminate.
  - reflexivity.
Defined.

(** The claim of C6 fails: an integer request with M = 0 whose data
    pointers A, B, C (and co) are all null returns Success. *)
Lemma null_data_pointers_accepted :
  let a := small_irequest 0 None (Some 0) (Some 0) in
  i_A a = None /\ i_B a = None /\ i_C a = None
  /\ mkldnn_gemm_s8u8s32 (plain_platform no_isa) a (empty_world no_isa)
     = Some (mkldnn_success, empty_world no_isa).
Proof. repeat split. Qed.

(** A request with a null pointer M is answered InvalidArguments. *)
Lemma null_scalar_pointer_invalid_witness :
  extended_sgemm (plain_platform no_isa)
    (small_request (Some "N"%char) None float_one) None false
    (empty_world no_isa)
  = Some (mkldnn_invalid_arguments, empty_world no_isa).
Proof.
  apply (proj1 (null_scalar_pointer_invalid (plain_platform no_isa)
                  (empty_world no_isa))).
  unfold any_scalar_null. simpl. tauto.
Defined.

End GemmFacts.

(** ** The parallel executor *)

Module ParallelNdFacts.

Import ParallelNd.

(** Membership in a half-open range [(start, end)]. *)
Definition in_range (x : Z) (r : Z * Z) : Prop := fst r <= x < snd r.

(** Where the range of worker [tid] starts. *)
Definition range_start (n team tid : Z) : Z :=
  tid * (n / team) + Z.min tid (n mod team).

Lemma balance211_eq (n team tid : Z) :
  balance211 n team tid
  = (range_start n team tid,
     range_start n team tid
     + (n / team + if tid <? n mod team then 1 else 0)).
Proof.
  unfold balance211, range_start.
  destruct (tid <? n mod team); f_equal; lia.
Qed.

Section Balance.

Variables total team : Z.
Hypothesis total_nonneg : 0 <= total.
Hypothesis team_pos : 1 <= team.

Let q := total / team.
Let r := total mod team.

Lemma div_mod_facts : total = team * q + r /\ 0 <= r < team /\ 0 <= q.
Proof.
  subst q r. split; [|split].
  - apply Z.div_mod. lia.
  - apply Z.mod_pos_bound. lia.
  - apply Z.div_pos; lia.
Qed.

Lemma range_start_0 : range_start total team 0 = 0.
Proof.
  unfold range_start. destruct div_mod_facts as (_ & Hr & _).
  fold r. lia.
Qed.

Lemma range_start_team : range_start total team team = total.
Proof.
  unfold range_start. destruct div_mod_facts as (Ht & Hr & _).
  fold q r. lia.
Qed.

(** The range of a worker ends where the next one starts. *)
Lemma range_start_succ (tid : Z) :
  range_start total team (tid + 1)
  = range_start total team tid + (q + if tid <? r then 1 else 0).
Proof.
  unfold range_start. fold q r.
  destruct (Z.ltb_spec tid r); lia.
Qed.

Lemma range_start_mono (i j : Z) :
  0 <= i <= j -> range_start total team i <= range_start total team j.
Proof.
  unfold range_start. fold q r.
  destruct div_mod_facts as (_ & Hr & Hq). intros Hij.
  assert (i * q <= j * q) by nia. lia.
Qed.

Lemma balance211_next (tid : Z) :
  balance211 total team tid
  = (range_start total team tid, range_start total team (tid + 1)).
Proof. rewrite balance211_eq, range_start_succ. reflexivity. Qed.

(** Every index below the start of worker [k] lies in the range of an
    earlier worker. *)
Lemma range_cover (k : nat) (x : Z) :
  0 <= x < range_start total team (Z.of_nat k) ->
  exists i, 0 <= i < Z.of_nat k
            /\ range_start total team i <= x < range_start total team (i + 1).
Proof.
  induction k as [|k IH].
  - simpl. rewrite range_start_0. lia.
  - intros Hx.
    destruct (Z_lt_le_dec x (range_start total team (Z.of_nat k)))
      as [Hlt | Hge].
    + destruct IH as [i [Hi Hin]]; [lia|]. exists i. split; [lia | exact Hin].
    + exists (Z.of_nat k). split; [lia|].
      replace (Z.of_nat k + 1) with (Z.of_nat (S k)) by lia. lia.
Qed.

Lemma ceil_div : (total + team - 1) / team = q + (if r =? 0 then 0 else 1).
Proof.
  destruct div_mod_facts as (Ht & Hr & Hq).
  destruct (Z.eqb_spec r 0) as [E | E].
  - symmetry. apply (Z.div_unique _ _ _ (team - 1)); lia.
  - symmetry. apply (Z.div_unique _ _ _ (r - 1)); lia.
Qed.

End Balance.

(** C7.  For [total >= 0] and [n >= 1] workers, the ranges
    [balance211(total, n, i)], [i = 0 .. n-1], lie in [[0, total)], are
    pairwise disjoint and cover [[0, total)]; the size of each is
    [floor(total/n)] or [ceil(total/n)], the larger size going to the ids
    below [total mod n]; and the range is a function of [(total, n, i)]. *)
Theorem balance211_partition (total n : Z) :
  0 <= total -> 1 <= n ->
  (forall i, 0 <= i < n ->
     let (s, e) := balance211 total n i in
     0 <= s /\ s <= e /\ e <= total
     /\ e - s = total / n + (if i <? total mod n then 1 else 0)
     /\ (e - s = total / n \/ e - s = (total + n - 1) / n))
  /\ (forall i j x, 0 <= i < n -> 0 <= j < n -> i <> j ->
        in_range x (balance211 total n i) ->
        ~ in_range x (balance211 total n j))
  /\ (forall x, 0 <= x < total ->
        exists i, 0 <= i < n /\ in_range x (balance211 total n i))
  /\ (forall i i', i = i' -> balance211 total n i = balance211 total n i').
Proof.
  intros Htotal Hn.
  pose proof (div_mod_facts total n Htotal Hn) as (Ht & Hr & Hq).
  split; [|split; [|split]].
  - intros i Hi. rewrite balance211_next.
    pose proof (range_start_mono total n Htotal Hn 0 i ltac:(lia)) as H0.
    pose proof (range_start_mono total n Htotal Hn (i + 1) n ltac:(lia))
      as H1.
    rewrite range_start_0 in H0 by assumption.
    rewrite range_start_team in H1 by assumption.
    pose proof (range_start_succ total n i) as Hs.
    rewrite (ceil_div total n Htotal Hn).
    destruct (Z.ltb_spec i (total mod n)); destruct (Z.eqb_spec (total mod n) 0);
      lia.
  - intros i j x Hi Hj Hij. rewrite !balance211_next. unfold in_range; simpl.
    intros Hxi Hxj.
    destruct (Z_lt_le_dec i j).
    + pose proof (range_start_mono total n Htotal Hn (i + 1) j ltac:(lia)).
      lia.
    + pose proof (range_start_mono total n Htotal Hn (j + 1) i ltac:(lia)).
      lia.
  - intros x Hx.
    destruct (range_cover total n Htotal Hn (Z.to_nat n) x) as [i [Hi Hin]].
    + rewrite Z2Nat.id by lia. rewrite range_start_team by assumption. lia.
    + exists i. split; [lia|]. rewrite balance211_next. exact Hin.
  - intros i i' ->. reflexivity.
Qed.

(** Ten units over four workers. *)
Lemma balance211_partition_witness :
  let (s, e) := balance211 10 4 1 in
  0 <= s /\ s <= e /\ e <= 10
  /\ e - s = 10 / 4 + (if 1 <? 10 mod 4 then 1 else 0)
  /\ (e - s = 10 / 4 \/ e - s = (10 + 4 - 1) / 4).
Proof.
  apply (proj1 (balance211_partition 10 4 ltac:(lia) ltac:(lia)) 1). lia.
Defined.

(** *** Coordinates and linear indices *)

(** The product of the extents. *)
Definition product (Ds : list Z) : Z := fold_right Z.mul 1 Ds.

(** The coordinate tuple of a linear index: its mixed-radix decomposition
    against the extents. *)
Definition coord (Ds : list Z) (i : Z) : list Z :=
  snd (nd_iterator_init i Ds).

(** A tuple of the Cartesian product of the extents. *)
Definition in_box (c Ds : list Z) : Prop :=
  Forall2 (fun d D => 0 <= d < D) c Ds.

(** The row-major linear index of a tuple: the last coordinate has weight
    one. *)
Fixpoint linear_index (Ds c : list Z) : Z :=
  match c, Ds with
  | d :: c', D :: Ds' => d * product Ds' + linear_index Ds' c'
  | _, _ => 0
  end.

Definition coord_eq_dec : forall c c' : list Z, {c = c'} + {c <> c'} :=
  list_eq_dec Z.eq_dec.

(** The invocations of all the workers of a team, worker after worker. *)
Definition all_invocations (nthr : Z) (Ds : list Z) : list (list Z) :=
  concat (map (fun o : option (list (list Z)) =>
                 match o with Some t => t | None => [] end)
              (parallel_nd nthr Ds)).

Lemma count_up_In (x a : Z) (n : nat) :
  In x (count_up a n) <-> a <= x < a + Z.of_nat n.
Proof.
  revert a. induction n as [|n IH]; intros a; simpl count_up.
  - simpl. lia.
  - simpl In. rewrite IH. lia.
Qed.

Lemma count_up_NoDup (a : Z) (n : nat) : NoDup (count_up a n).
Proof.
  revert a. induction n as [|n IH]; intros a; simpl; constructor.
  - rewrite count_up_In. lia.
  - apply IH.
Qed.

Lemma count_up_app (a : Z) (n m : nat) :
  count_up a (n + m) = count_up a n ++ count_up (a + Z.of_nat n) m.
Proof.
  revert a. induction n as [|n IH]; intros a.
  - simpl. now rewrite Z.add_0_r.
  - cbn [count_up Nat.add app]. rewrite IH. do 3 f_equal. lia.
Qed.

Lemma product_nonneg (Ds : list Z) :
  Forall (fun D => 0 <= D) Ds -> 0 <= product Ds.
Proof.
  induction 1 as [|D Ds HD _ IH]; simpl; [lia | nia].
Qed.

Lemma product_pos_all (Ds : list Z) :
  Forall (fun D => 0 <= D) Ds -> 0 < product Ds ->
  Forall (fun D => 0 < D) Ds.
Proof.
  induction 1 as [|D Ds HD Hall IH]; simpl; intros Hp; constructor.
  - pose proof (product_nonneg Ds Hall). nia.
  - apply IH. pose proof (product_nonneg Ds Hall). nia.
Qed.

Lemma product_zero (Ds : list Z) : In 0 Ds -> product Ds = 0.
Proof.
  induction Ds as [|D Ds IH]; simpl; [tauto|].
  intros [-> | Hin]; [reflexivity|]. rewrite IH by assumption. lia.
Qed.

(** [(size_t)D0 * D1 * ...] is the product of the extents modulo 2^64. *)
Lemma work_amount_eq (D0 : Z) (Ds : list Z) :
  work_amount D0 Ds = wrap_size_t (product (D0 :: Ds)).
Proof.
  unfold work_amount. simpl product. revert D0.
  induction Ds as [|D Ds IH]; intros D0; simpl.
  - now rewrite Z.mul_1_r.
  - replace (wrap_size_t (wrap_size_t D0 * D)) with (wrap_size_t (D0 * D)).
    + rewrite IH. f_equal. lia.
    + unfold wrap_size_t. now rewrite Z.mul_mod_idemp_l.
Qed.

(** Adding one to a number, seen on its quotient and remainder. *)
Lemma succ_div_mod (D q : Z) :
  0 < D ->
  (q + 1) mod D = (q mod D + 1) mod D
  /\ (q + 1) / D = q / D + (if (q mod D + 1) mod D =? 0 then 1 else 0).
Proof.
  intros HD.
  pose proof (Z.div_mod q D ltac:(lia)) as Hq.
  pose proof (Z.mod_pos_bound q D HD) as Hb.
  assert (Hm : (q + 1) mod D = (q mod D + 1) mod D)
    by (now rewrite Z.add_mod_idemp_l by lia).
  split; [exact Hm|].
  destruct (Z.eq_dec (q mod D + 1) D) as [E | E].
  - rewrite E, Z.mod_same by lia. simpl.
    symmetry. apply (Z.div_unique _ _ _ 0); lia.
  - rewrite (Z.mod_small (q mod D + 1) D) by lia.
    destruct (Z.eqb_spec (q mod D + 1) 0); [lia|].
    symmetry. apply (Z.div_unique _ _ _ (q mod D + 1)); lia.
Qed.

(** One step of the odometer is the decomposition of the next index. *)
Lemma nd_iterator_step_init (Ds : list Z) :
  Forall (fun D => 0 < D) Ds ->
  forall i : Z,
    nd_iterator_init (i + 1) Ds
    = (fst (nd_iterator_init i Ds)
       + (if fst (nd_iterator_step (coord Ds i) Ds) then 1 else 0),
       snd (nd_iterator_step (coord Ds i) Ds)).
Proof.
  unfold coord.
  induction 1 as [|D Ds HD _ IH]; intros i.
  - simpl. reflexivity.
  - cbn [nd_iterator_init]. rewrite IH.
    destruct (nd_iterator_init i Ds) as [q xs]. cbn [fst snd].
    cbn [nd_iterator_step].
    destruct (nd_iterator_step xs Ds) as [[|] xs']; cbn [fst snd].
    + destruct (succ_div_mod D q HD) as [Hm Hd].
      rewrite Hm, Hd. reflexivity.
    + rewrite !Z.add_0_r. reflexivity.
Qed.

Lemma nd_iterator_step_coord (Ds : list Z) (i : Z) :
  Forall (fun D => 0 < D) Ds ->
  snd (nd_iterator_step (coord Ds i) Ds) = coord Ds (i + 1).
Proof.
  intros Hpos. unfold coord at 2.
  now rewrite (nd_iterator_step_init Ds Hpos i).
Qed.

(** The loop visits the decompositions of consecutive linear indices. *)
Lemma for_nd_loop_coord (Ds : list Z) :
  Forall (fun D => 0 < D) Ds ->
  forall (n : nat) (i : Z),
    for_nd_loop n (coord Ds i) Ds = map (coord Ds) (count_up i n).
Proof.
  intros Hpos. induction n as [|n IH]; intros i; simpl.
  - reflexivity.
  - rewrite nd_iterator_step_coord by assumption. now rewrite IH.
Qed.

Lemma coord_in_box (Ds : list Z) (i : Z) :
  Forall (fun D => 0 < D) Ds -> in_box (coord Ds i) Ds.
Proof.
  unfold coord, in_box. induction 1 as [|D Ds HD _ IH]; simpl.
  - constructor.
  - destruct (nd_iterator_init i Ds) as [q xs]. simpl in *.
    constructor; [|assumption]. apply Z.mod_pos_bound. lia.
Qed.

Lemma linear_index_bound (c Ds : list Z) :
  in_box c Ds -> 0 <= linear_index Ds c < product Ds.
Proof.
  induction 1 as [|d D c Ds Hd _ IH]; simpl; [lia | nia].
Qed.

(** The decomposition splits an index into the linear index of the
    coordinate and a multiple of the product of the extents. *)
Lemma nd_iterator_init_linear (Ds : list Z) :
  Forall (fun D => 0 < D) Ds ->
  forall i : Z,
    i = fst (nd_iterator_init i Ds) * product Ds
        + linear_index Ds (coord Ds i).
Proof.
  unfold coord. induction 1 as [|D Ds HD _ IH]; intros i; simpl.
  - lia.
  - specialize (IH i). destruct (nd_iterator_init i Ds) as [q xs].
    simpl in *. pose proof (Z.div_mod q D ltac:(lia)). nia.
Qed.

Lemma linear_index_coord (Ds : list Z) (i : Z) :
  Forall (fun D => 0 < D) Ds -> 0 <= i < product Ds ->
  linear_index Ds (coord Ds i) = i.
Proof.
  intros Hpos Hi.
  pose proof (nd_iterator_init_linear Ds Hpos i) as E.
  pose proof (linear_index_bound _ _ (coord_in_box Ds i Hpos)) as Hb.
  assert (fst (nd_iterator_init i Ds) = 0) by nia. nia.
Qed.

(** A tuple of the box is the decomposition of its linear index. *)
Lemma nd_iterator_init_of_linear (c Ds : list Z) :
  in_box c Ds ->
  forall a : Z,
    nd_iterator_init (a * product Ds + linear_index Ds c) Ds = (a, c).
Proof.
  induction 1 as [|d D c Ds Hd _ IH]; intros a; simpl.
  - f_equal. lia.
  - replace (a * (D * product Ds) + (d * product Ds + linear_index Ds c))
      with ((a * D + d) * product Ds + linear_index Ds c) by lia.
    rewrite IH. f_equal.
    + symmetry. apply (Z.div_unique _ _ _ d); lia.
    + f_equal. symmetry. apply (Z.mod_unique _ _ a); lia.
Qed.

Lemma coord_linear_index (c Ds : list Z) :
  in_box c Ds -> coord Ds (linear_index Ds c) = c.
Proof.
  intros Hc. unfold coord.
  pose proof (nd_iterator_init_of_linear c Ds Hc 0) as E.
  simpl in E. now rewrite E.
Qed.

(** *** What one worker visits *)

(** The linear indices of the range of worker [ithr]. *)
Definition worker_indices (total nthr ithr : Z) : list Z :=
  let (start, end_) := balance211 total nthr ithr in
  count_up start (Z.to_nat (end_ - start)).

Lemma worker_indices_bounds (total nthr ithr i : Z) :
  0 <= total -> 1 <= nthr -> 0 <= ithr < nthr ->
  In i (worker_indices total nthr ithr) -> 0 <= i < total.
Proof.
  intros Ht Hn Hi. unfold worker_indices. rewrite balance211_next.
  rewrite count_up_In.
  pose proof (range_start_mono total nthr Ht Hn 0 ithr ltac:(lia)) as H0.
  pose proof (range_start_mono total nthr Ht Hn ithr (ithr + 1) ltac:(lia)).
  pose proof (range_start_mono total nthr Ht Hn (ithr + 1) nthr ltac:(lia))
    as H1.
  rewrite range_start_0 in H0 by assumption.
  rewrite range_start_team in H1 by assumption.
  lia.
Qed.

Lemma worker_indices_empty (nthr ithr : Z) :
  0 <= ithr -> worker_indices 0 nthr ithr = [].
Proof.
  intros Hi. unfold worker_indices, balance211.
  rewrite Zdiv_0_l, Zmod_0_l.
  destruct (Z.ltb_spec ithr 0); [lia|].
  now replace (ithr * 0 + Z.min ithr 0 + 0 - (ithr * 0 + Z.min ithr 0))
    with 0 by lia.
Qed.

(** The overloads with two to six extents. *)
Lemma for_nd_n_trace (ithr nthr D0 : Z) (Ds : list Z) :
  Forall (fun D => 0 <= D) (D0 :: Ds) -> product (D0 :: Ds) < 2 ^ 64 ->
  0 <= ithr ->
  for_nd_n ithr nthr D0 Ds
  = map (coord (D0 :: Ds))
        (worker_indices (product (D0 :: Ds)) nthr ithr).
Proof.
  intros Hnn Hfit Hi. unfold for_nd_n.
  pose proof (product_nonneg _ Hnn) as Hp.
  rewrite work_amount_eq, wrap_size_t_small by lia.
  destruct (Z.eqb_spec (product (D0 :: Ds)) 0) as [E | E].
  - rewrite E, worker_indices_empty by assumption. reflexivity.
  - unfold worker_indices.
    destruct (balance211 (product (D0 :: Ds)) nthr ithr) as [start end_].
    apply for_nd_loop_coord. apply product_pos_all; [assumption | lia].
Qed.

(** The overload with one extent. *)
Lemma for_nd_1_trace (ithr nthr D0 : Z) :
  0 <= D0 -> 1 <= nthr -> 0 <= ithr < nthr ->
  map (fun d0 => [d0]) (for_nd_1 ithr nthr D0)
  = map (coord [D0]) (worker_indices (product [D0]) nthr ithr).
Proof.
  intros HD Hn Hi. simpl product. rewrite Z.mul_1_r.
  unfold for_nd_1. fold (worker_indices D0 nthr ithr).
  apply map_ext_in. intros i Hin.
  apply (worker_indices_bounds D0 nthr ithr i HD Hn Hi) in Hin.
  unfold coord. simpl. now rewrite Z.mod_small.
Qed.

Lemma for_nd_trace (ithr nthr : Z) (Ds : list Z) :
  1 <= nthr -> 0 <= ithr < nthr ->
  (1 <= length Ds <= 6)%nat ->
  Forall (fun D => 0 <= D) Ds -> product Ds < 2 ^ 64 ->
  for_nd ithr nthr Ds
  = Some (map (coord Ds) (worker_indices (product Ds) nthr ithr)).
Proof.
  intros Hn Hi Hlen Hnn Hfit.
  destruct Ds as [|D0 [|D1 [|D2 [|D3 [|D4 [|D5 [|D6 Ds]]]]]]];
    simpl in Hlen; try lia.
  - simpl for_nd. f_equal. apply for_nd_1_trace; try assumption.
    now inversion Hnn.
  - simpl for_nd. f_equal. apply for_nd_n_trace; assumption || lia.
  - simpl for_nd. f_equal. apply for_nd_n_trace; assumption || lia.
  - simpl for_nd. f_equal. apply for_nd_n_trace; assumption || lia.
  - simpl for_nd. f_equal. apply for_nd_n_trace; assumption || lia.
  - simpl for_nd. f_equal. apply for_nd_n_trace; assumption || lia.
Qed.

(** *** What the team visits *)

Lemma count_up_snoc (a : Z) (n : nat) :
  count_up a (S n) = count_up a n ++ [a + Z.of_nat n].
Proof.
  replace (S n) with (n + 1)%nat by lia. now rewrite count_up_app.
Qed.

(** The ranges of the first [k] workers, one after the other, are the
    indices below the start of worker [k]. *)
Lemma worker_indices_concat (total nthr : Z) (k : nat) :
  0 <= total -> 1 <= nthr -> Z.of_nat k <= nthr ->
  concat (map (worker_indices total nthr) (count_up 0 k))
  = count_up 0 (Z.to_nat (range_start total nthr (Z.of_nat k))).
Proof.
  intros Ht Hn. induction k as [|k IH]; intros Hk.
  - simpl. rewrite range_start_0 by assumption. reflexivity.
  - rewrite count_up_snoc, map_app, concat_app, IH by lia.
    cbn [map concat]. rewrite app_nil_r, Z.add_0_l.
    unfold worker_indices. rewrite balance211_next.
    replace (Z.of_nat k + 1) with (Z.of_nat (S k)) by lia.
    pose proof (range_start_mono total nthr Ht Hn 0 (Z.of_nat k)
                  ltac:(lia)) as H0.
    rewrite range_start_0 in H0 by assumption.
    pose proof (range_start_mono total nthr Ht Hn (Z.of_nat k)
                  (Z.of_nat (S k)) ltac:(lia)) as H1.
    set (s := range_start total nthr (Z.of_nat k)) in *.
    set (e := range_start total nthr (Z.of_nat (S k))) in *.
    replace (Z.to_nat e) with (Z.to_nat s + Z.to_nat (e - s))%nat by lia.
    rewrite count_up_app. do 2 f_equal. lia.
Qed.

Lemma team_In (nthr ithr : Z) : In ithr (team nthr) <-> 0 <= ithr < nthr.
Proof. unfold team. rewrite count_up_In. lia. Qed.

(** Worker after worker, the team visits the decompositions of
    [0, 1, ..., product - 1], in this order. *)
Lemma all_invocations_eq (nthr : Z) (Ds : list Z) :
  1 <= nthr -> (1 <= length Ds <= 6)%nat ->
  Forall (fun D => 0 <= D) Ds -> product Ds < 2 ^ 64 ->
  all_invocations nthr Ds
  = map (coord Ds) (count_up 0 (Z.to_nat (product Ds))).
Proof.
  intros Hn Hlen Hnn Hfit. unfold all_invocations, parallel_nd.
  rewrite map_map.
  rewrite (map_ext_in _
             (fun ithr =>
                map (coord Ds) (worker_indices (product Ds) nthr ithr))).
  - rewrite <- (map_map (worker_indices (product Ds) nthr)
                        (map (coord Ds))).
    rewrite <- concat_map. f_equal. unfold team.
    pose proof (product_nonneg Ds Hnn).
    rewrite worker_indices_concat by lia.
    rewrite Z2Nat.id by lia. now rewrite range_start_team by lia.
  - intros ithr Hin. apply team_In in Hin.
    now rewrite for_nd_trace.
Qed.

(** Each tuple of the box is visited once, nothing else is visited. *)
Lemma coord_enumeration_count (Ds c : list Z) :
  Forall (fun D => 0 <= D) Ds ->
  let visited := map (coord Ds) (count_up 0 (Z.to_nat (product Ds))) in
  (in_box c Ds -> count_occ coord_eq_dec visited c = 1%nat)
  /\ (~ in_box c Ds -> count_occ coord_eq_dec visited c = 0%nat).
Proof.
  intros Hnn visited.
  assert (Hin : In c visited <-> in_box c Ds).
  { subst visited. rewrite in_map_iff. split.
    - intros [i [<- Hi]]. apply count_up_In in Hi.
      apply coord_in_box. apply product_pos_all; [assumption | lia].
    - intros Hc. exists (linear_index Ds c).
      split; [now apply coord_linear_index|].
      apply count_up_In. pose proof (linear_index_bound c Ds Hc). lia. }
  assert (Hnd : NoDup visited).
  { subst visited. apply NoDup_map_NoDup_ForallPairs;
      [|apply count_up_NoDup].
    intros i j Hi Hj E. apply count_up_In in Hi, Hj.
    assert (Hpos : Forall (fun D => 0 < D) Ds)
      by (apply product_pos_all; [assumption | lia]).
    rewrite <- (linear_index_coord Ds i Hpos) by lia.
    rewrite <- (linear_index_coord Ds j Hpos) by lia.
    now rewrite E. }
  split.
  - intros Hc. apply NoDup_count_occ'; [assumption | now apply Hin].
  - intros Hc. apply count_occ_not_In. now rewrite Hin.
Qed.

(** C8, as the code has it.  For one to six extents, each at least 0, whose
    product fits in [size_t], and a team of [nthr >= 1] workers: over all
    worker ids every coordinate tuple of the Cartesian product is visited
    exactly once and nothing else is visited; one worker visits the
    mixed-radix decompositions of the consecutive linear indices of its
    [balance211] range, in increasing row-major order; and with a zero
    extent nothing is visited. *)
Theorem for_nd_visits_each_once (nthr : Z) (Ds : list Z) :
  1 <= nthr -> (1 <= length Ds <= 6)%nat ->
  Forall (fun D => 0 <= D) Ds -> product Ds < 2 ^ 64 ->
  (forall c : list Z,
      (in_box c Ds ->
       count_occ coord_eq_dec (all_invocations nthr Ds) c = 1%nat)
      /\ (~ in_box c Ds ->
          count_occ coord_eq_dec (all_invocations nthr Ds) c = 0%nat))
  /\ (forall ithr, 0 <= ithr < nthr ->
        for_nd ithr nthr Ds
        = Some (map (coord Ds) (worker_indices (product Ds) nthr ithr))
        /\ forall i, In i (worker_indices (product Ds) nthr ithr) ->
                     linear_index Ds (coord Ds i) = i)
  /\ (In 0 Ds ->
      forall ithr, 0 <= ithr < nthr -> for_nd ithr nthr Ds = Some []).
Proof.
  intros Hn Hlen Hnn Hfit. split; [|split].
  - intros c. rewrite all_invocations_eq by assumption.
    now apply coord_enumeration_count.
  - intros ithr Hi. split; [now apply for_nd_trace|].
    intros i Hin.
    pose proof (product_nonneg Ds Hnn) as Hp.
    apply (worker_indices_bounds _ nthr ithr i Hp Hn Hi) in Hin.
    apply linear_index_coord; [|assumption].
    apply product_pos_all; [assumption | lia].
  - intros Hz ithr Hi. rewrite for_nd_trace by assumption.
    rewrite (product_zero Ds Hz), worker_indices_empty by lia. reflexivity.
Qed.

(** A 2-by-3 space over two workers: the tuple (1, 2) is visited once. *)
Lemma for_nd_visits_each_once_witness :
  count_occ coord_eq_dec (all_invocations 2 [2; 3]) [1; 2] = 1%nat.
Proof.
  apply (proj1 (for_nd_visits_each_once 2 [2; 3] ltac:(lia)
                  ltac:(simpl; lia)
                  ltac:(repeat constructor; lia)
                  ltac:(simpl; lia))).
  repeat constructor; lia.
Defined.

(** The claim of C8 fails when the product of the extents does not fit in
    [size_t]: with extents 2^22, 2^21, 2^21 the product is 2^64,
    [work_amount] is 0, and the tuple (0, 0, 0) is never visited. *)
Lemma for_nd_product_overflow :
  let Ds := [2 ^ 22; 2 ^ 21; 2 ^ 21] in
  Forall (fun D => 0 <= D) Ds
  /\ in_box [0; 0; 0] Ds
  /\ for_nd 0 1 Ds = Some []
  /\ count_occ coord_eq_dec (all_invocations 1 Ds) [0; 0; 0] = 0%nat.
Proof.
  split; [|split; [|split]].
  - repeat constructor; lia.
  - repeat constructor; lia.
  - reflexivity.
  - reflexivity.
Qed.

End ParallelNdFacts.

(** ** The kernel emitter *)

Module JitFacts.

Import Jit.

Lemma set_reg_same (f : Reg64 -> Z) (r : Reg64) (v : Z) :
  set_reg f r v r = v.
Proof. unfold set_reg. destruct (Reg64_eq_dec r r); congruence. Qed.

Lemma set_reg_other (f : Reg64 -> Z) (r r' : Reg64) (v : Z) :
  r' <> r -> set_reg f r v r' = f r'.
Proof. unfold set_reg. destruct (Reg64_eq_dec r' r); congruence. Qed.

Lemma sext32_small (i : Z) : 0 <= i <= INT_MAX -> sext32 (i mod 2 ^ 32) = i.
Proof.
  unfold sext32, INT_MAX. intros H.
  rewrite (Z.mod_small i) by lia. rewrite Z.mod_small; lia.
Qed.

Lemma word64_small (z : Z) : 0 <= z < 2 ^ 64 -> word64 z = z.
Proof. intros H. unfold word64. now apply Z.mod_small. Qed.

(** [preamble] establishes the precondition of [EVEX_compress_addr]. *)
Lemma preamble_loads_offset_register (mayiuse : cpu_isa_t -> bool)
    (m : machine) :
  mayiuse avx512_common = true ->
  regs (run (preamble mayiuse) m) reg_EVEX_max_8b_offt
  = 2 * EVEX_max_8b_offt.
Proof.
  intros Hisa. unfold preamble, run. rewrite Hisa, fold_left_app. simpl.
  apply set_reg_same.
Qed.

(** The three forms of [EVEX_compress_addr] and what they denote. *)
Lemma EVEX_compress_addr_bands (f : Reg64 -> Z) (base : Reg64)
    (offt : Z) (bcast : bool) :
  f rbp = 1024 -> 0 <= offt <= INT_MAX ->
  let a := EVEX_compress_addr base offt bcast in
  effective_address f a = word64 (f base + offt)
  /\ (512 <= offt < 1536 ->
      e_ a = {| base_ := Some base; index_ := Some rbp;
                scale_ := 1; disp_ := offt - 1024 |})
  /\ (1536 <= offt < 2560 ->
      e_ a = {| base_ := Some base; index_ := Some rbp;
                scale_ := 2; disp_ := offt - 2048 |})
  /\ (offt < 512 \/ 2560 <= offt ->
      e_ a = {| base_ := Some base; index_ := None;
                scale_ := 0; disp_ := offt |}).
Proof.
  intros Hrbp Hoff a. subst a.
  unfold EVEX_compress_addr, static_cast_int.
  rewrite wrap_int_small by (unfold INT_MIN, INT_MAX in *; lia).
  unfold EVEX_max_8b_offt, reg_EVEX_max_8b_offt.
  change (3 * 512) with 1536. change (5 * 512) with 2560.
  change (2 * 512) with 1024. change (4 * 512) with 2048.
  destruct (Z.leb_spec 512 offt); destruct (Z.ltb_spec offt 1536);
    cbn [andb].
  - (* first band *)
    destruct bcast; unfold effective_address; cbn;
      rewrite Hrbp; (split; [f_equal; lia|]);
      repeat split; intros; try lia; try (f_equal; lia).
  - (* second band or beyond *)
    destruct (Z.leb_spec 1536 offt); [|lia].
    destruct (Z.ltb_spec offt 2560); cbn [andb].
    + destruct bcast; unfold effective_address; cbn;
        rewrite Hrbp; (split; [f_equal; lia|]);
        repeat split; intros; try lia; try (f_equal; lia).
    + destruct bcast; unfold effective_address; cbn;
        (split; [f_equal; lia|]);
        repeat split; intros; try lia; try (f_equal; lia).
  - destruct (Z.leb_spec 1536 offt); [lia|]. cbn [andb].
    destruct bcast; unfold effective_address; cbn;
      (split; [f_equal; lia|]);
      repeat split; intros; try lia; try (f_equal; lia).
  - lia.
Qed.

(** C10.  When the offset register rbp holds 0x400, which is what
    [preamble] loads into it, [EVEX_compress_addr(base, offt)] denotes the
    address [base + offt] for every [0 <= offt <= INT_MAX]: for
    [0x200 <= offt < 0x600] the displacement is [offt - 0x400] with rbp
    scaled by 1, for [0x600 <= offt < 0xA00] it is [offt - 0x800] with rbp
    scaled by 2, and otherwise [offt] is encoded directly. *)
Theorem EVEX_compress_addr_correct (f : Reg64 -> Z) (base : Reg64)
    (offt : Z) (bcast : bool) :
  f rbp = 1024 -> 0 <= offt <= INT_MAX ->
  let a := EVEX_compress_addr base offt bcast in
  (effective_address f a = word64 (f base + offt)
   /\ (512 <= offt < 1536 ->
       e_ a = {| base_ := Some base; index_ := Some rbp;
                 scale_ := 1; disp_ := offt - 1024 |})
   /\ (1536 <= offt < 2560 ->
       e_ a = {| base_ := Some base; index_ := Some rbp;
                 scale_ := 2; disp_ := offt - 2048 |})
   /\ (offt < 512 \/ 2560 <= offt ->
       e_ a = {| base_ := Some base; index_ := None;
                 scale_ := 0; disp_ := offt |}))
  /\ (forall (mayiuse : cpu_isa_t -> bool) (m : machine),
         mayiuse avx512_common = true ->
         regs (run (preamble mayiuse) m) rbp = 1024).
Proof.
  intros Hrbp Hoff a. split.
  - now apply EVEX_compress_addr_bands.
  - intros mayiuse m Hisa.
    now apply preamble_loads_offset_register.
Qed.

(** A machine whose registers all hold the same value. *)
Definition flat_machine (v : Z) : machine :=
  {| regs := fun _ => v; stack := [] |}.

(** Offset 0x300 from rax after [preamble]. *)
Lemma EVEX_compress_addr_correct_witness :
  let m := run (preamble (fun _ => true)) (flat_machine 4096) in
  effective_address (regs m) (EVEX_compress_addr rax 768 false)
  = word64 (regs m rax + 768).
Proof.
  intros m.
  apply (proj1 (EVEX_compress_addr_correct (regs m) rax 768 false
                  ltac:(reflexivity)
                  ltac:(unfold INT_MAX; lia))).
Defined.

(** *** The two forms of an offset *)

Ltac reg_cases :=
  repeat first
    [ rewrite set_reg_same
    | rewrite set_reg_other by congruence ].

Lemma safe_add_regs (m : machine) (base scratch : Reg64) (offt : Z)
    (r : Reg64) :
  base <> scratch -> 0 <= offt < 2 ^ 64 -> r <> scratch ->
  regs (run (safe_add base offt scratch) m) r
  = direct_add (regs m) base offt r.
Proof.
  intros Hbs Hoff Hr. unfold safe_add, direct_add, run.
  destruct (Z.ltb_spec INT_MAX offt);
    cbn [fold_left exec regs operand_value].
  - destruct (Reg64_eq_dec r base) as [-> | Hrb]; reg_cases.
    + now rewrite (word64_small offt) by lia.
    + reflexivity.
  - rewrite sext32_small by lia.
    destruct (Reg64_eq_dec r base) as [-> | Hrb]; now reg_cases.
Qed.

Lemma safe_sub_regs (m : machine) (base scratch : Reg64) (offt : Z)
    (r : Reg64) :
  base <> scratch -> 0 <= offt < 2 ^ 64 -> r <> scratch ->
  regs (run (safe_sub base offt scratch) m) r
  = direct_sub (regs m) base offt r.
Proof.
  intros Hbs Hoff Hr. unfold safe_sub, direct_sub, run.
  destruct (Z.ltb_spec INT_MAX offt);
    cbn [fold_left exec regs operand_value].
  - destruct (Reg64_eq_dec r base) as [-> | Hrb]; reg_cases.
    + now rewrite (word64_small offt) by lia.
    + reflexivity.
  - rewrite sext32_small by lia.
    destruct (Reg64_eq_dec r base) as [-> | Hrb]; now reg_cases.
Qed.

Lemma make_safe_addr_denotes (m : machine) (base scratch : Reg64)
    (offt : Z) (bcast : bool) :
  base <> scratch -> 0 <= offt < 2 ^ 64 ->
  effective_address
    (regs (run (fst (make_safe_addr base offt scratch bcast)) m))
    (snd (make_safe_addr base offt scratch bcast))
  = direct_address (regs m) base offt.
Proof.
  intros Hbs Hoff. unfold make_safe_addr, direct_address, run.
  destruct (Z.ltb_spec INT_MAX offt); cbn [fst snd fold_left exec regs].
  - destruct bcast; unfold effective_address; cbn; reg_cases;
      rewrite (word64_small offt) by lia; f_equal; lia.
  - destruct bcast; unfold effective_address; cbn; f_equal; lia.
Qed.



End JitFacts.

(** ** More on the GEMM dispatcher *)

Module GemmMore.

Import Gemm GemmFacts ParallelNd ParallelNdFacts.

(** The three offset modes, in either case. *)
Definition offset_modes : list ascii := ["F"; "f"; "C"; "c"; "R"; "r"]%char.

(** The kernels called after [w], in order, and the memory they leave. *)
Definition replay (P : platform) (calls : list call) (w : world P)
  : world P :=
  fold_left (fun w c => {| heap := snd (extern P c (heap w));
                           called := called w ++ [c] |}) calls w.

Lemma check_sgemm_args_accepts (a : sgemm_args) (s : scalars) :
  scalars_of a s -> scalars_shape_ok s ->
  check_sgemm_args a false = mkldnn_success.
Proof.
  intros Hs Hok. rewrite (check_sgemm_args_scalars a s false Hs).
  destruct (check_gemm_input_cases (v_transa s) (v_transb s) (v_M s)
              (v_N s) (v_K s) (v_lda s) (v_ldb s) (v_ldc s)
              (v_alpha s) (v_beta s) false) as [_ Hc].
  destruct (Hc eq_refl) as [Hyes _]. now apply Hyes.
Qed.

(** Validation of an integer request: it is accepted exactly when the
    offset mode is one of F, C, R (in either case), the ten scalar pointers
    are non-null and flags, extents and strides are well formed; otherwise
    the status is InvalidArguments and never Unimplemented. *)
Theorem check_igemm_args_accepts_iff (a : igemm_args) :
  (check_igemm_args a = mkldnn_success
   <-> (exists oc, i_offsetc a = Some oc /\ In oc offset_modes)
       /\ exists s, scalars_of (as_sgemm a) s /\ scalars_shape_ok s)
  /\ (check_igemm_args a = mkldnn_success
      \/ check_igemm_args a = mkldnn_invalid_arguments).
Proof.
  split.
  - split.
    + intros E. split; [|now apply check_igemm_args_success].
      rewrite check_igemm_args_unfold in E.
      destruct (i_offsetc a) as [oc|]; [|discriminate].
      exists oc. split; [reflexivity|]. apply one_of_In.
      unfold offset_modes.
      destruct (one_of oc ["F"; "f"; "C"; "c"; "R"; "r"]%char);
        [reflexivity | discriminate].
    + intros [[oc [Hoc Hin]] [s [Hs Hok]]].
      rewrite check_igemm_args_unfold, Hoc.
      apply one_of_In in Hin. unfold offset_modes in Hin. rewrite Hin.
      simpl. now apply (check_sgemm_args_accepts _ s).
  - rewrite check_igemm_args_unfold.
    destruct (i_offsetc a) as [oc|]; [|now right].
    destruct (negb (one_of oc ["F"; "f"; "C"; "c"; "R"; "r"]%char));
      [now right|].
    destruct (check_sgemm_args (as_sgemm a) false) eqn:E;
      [now left | now right | exfalso].
    destruct (check_sgemm_args_not_invalid (as_sgemm a) false) as [s Hs];
      [rewrite E; discriminate|].
    rewrite (check_sgemm_args_scalars _ s false Hs) in E.
    rewrite check_gemm_input_scalars in E. simpl in E.
    repeat match type of E with
           | (if ?c then _ else _) = _ => destruct c
           end; discriminate.
Qed.

(** The transpose flags are read without regard to case: 't' is validated
    as 'T' and 'n' as 'N', for either operand. *)
Theorem check_gemm_input_flag_case (t : option ascii)
    (M N K lda ldb ldc : option Z) (alpha beta : option float)
    (with_bias : bool) :
  check_gemm_input (Some "t"%char) t M N K lda ldb ldc alpha beta with_bias
  = check_gemm_input (Some "T"%char) t M N K lda ldb ldc alpha beta
      with_bias
  /\ check_gemm_input (Some "n"%char) t M N K lda ldb ldc alpha beta
       with_bias
     = check_gemm_input (Some "N"%char) t M N K lda ldb ldc alpha beta
         with_bias
  /\ check_gemm_input t (Some "t"%char) M N K lda ldb ldc alpha beta
       with_bias
     = check_gemm_input t (Some "T"%char) M N K lda ldb ldc alpha beta
         with_bias
  /\ check_gemm_input t (Some "n"%char) M N K lda ldb ldc alpha beta
       with_bias
     = check_gemm_input t (Some "N"%char) M N K lda ldb ldc alpha beta
         with_bias.
Proof.
  destruct t as [t|], M as [m|], N as [n|], K as [k|], lda as [la|],
    ldb as [lb|], ldc as [lc|], alpha as [al|], beta as [be|];
    repeat split; try reflexivity;
    rewrite !check_gemm_input_scalars; reflexivity.
Qed.

(** Leading dimensions may be padded: a request that is accepted stays
    accepted when lda, ldb, ldc grow. *)
Theorem check_gemm_input_padding (ta tb : ascii)
    (m n k la lb lc la' lb' lc' : Z) (al be : float) (with_bias : bool) :
  la <= la' -> lb <= lb' -> lc <= lc' ->
  check_gemm_input (Some ta) (Some tb) (Some m) (Some n) (Some k)
    (Some la) (Some lb) (Some lc) (Some al) (Some be) with_bias
  = mkldnn_success ->
  check_gemm_input (Some ta) (Some tb) (Some m) (Some n) (Some k)
    (Some la') (Some lb') (Some lc') (Some al) (Some be) with_bias
  = mkldnn_success.
Proof.
  intros Ha Hb Hc. rewrite !check_gemm_input_scalars.
  destruct (with_bias && float_ne_zero be); [discriminate|].
  destruct (one_of ta transpose_flags && one_of tb transpose_flags
            && (0 <=? m) && (0 <=? n) && (0 <=? k)); [|discriminate].
  pose proof (strides_test_spec ta tb m n k la lb lc) as H.
  pose proof (strides_test_spec ta tb m n k la' lb' lc') as H'.
  destruct ((Z.max 1 (if transposed ta then k else m) <=? la)
            && (Z.max 1 (if transposed tb then n else k) <=? lb)
            && (Z.max 1 m <=? lc)); [|discriminate].
  intros _.
  assert (Hok : strides_ok ta tb m n k la' lb' lc').
  { destruct H as [H _]. specialize (H eq_refl).
    unfold strides_ok in *. lia. }
  apply H' in Hok. now rewrite Hok.
Qed.

Lemma check_gemm_input_padding_witness :
  check_gemm_input (Some "N"%char) (Some "N"%char) (Some 2) (Some 2)
    (Some 2) (Some 8) (Some 8) (Some 8) (Some float_one) (Some float_zero)
    false = mkldnn_success.
Proof.
  apply (check_gemm_input_padding "N" "N" 2 2 2 2 2 2 8 8 8
           float_one float_zero false); try lia.
  reflexivity.
Defined.

(** *** Routes *)

Section Routes.

Variable P : platform.

Lemma invoke_replay (c : call) (w : world P) :
  invoke c w = Some (fst (extern P c (heap w)), replay P [c] w).
Proof.
  unfold invoke, replay. simpl. now destruct (extern P c (heap w)).
Qed.

Lemma replay_app (l1 l2 : list call) (w : world P) :
  replay P (l1 ++ l2) w = replay P l2 (replay P l1 w).
Proof. unfold replay. apply fold_left_app. Qed.

(** What validation of an integer request guarantees about its scalar
    pointers. *)
Lemma igemm_scalars (a : igemm_args) :
  check_igemm_args a = mkldnn_success ->
  exists oc s,
    i_offsetc a = Some oc
    /\ i_transa a = Some (v_transa s) /\ i_transb a = Some (v_transb s)
    /\ i_M a = Some (v_M s) /\ i_N a = Some (v_N s) /\ i_K a = Some (v_K s)
    /\ i_LDA a = Some (v_lda s) /\ i_LDB a = Some (v_ldb s)
    /\ i_LDC a = Some (v_ldc s)
    /\ i_alpha a = Some (v_alpha s) /\ i_beta a = Some (v_beta s).
Proof.
  intros E. destruct (check_igemm_args_success a E) as [s [Hs _]].
  rewrite check_igemm_args_unfold in E.
  destruct (i_offsetc a) as [oc|]; [|discriminate].
  exists oc, s. split; [reflexivity|]. exact Hs.
Qed.

(** The unsigned path without the vendor integer GEMM: a request that
    passes validation with non-zero extents goes to the generated-kernel
    driver when avx512_core is present and to the reference kernel
    otherwise, whatever its zero-points (null ones included) and its
    output shape. *)
Theorem gemm_s8u8s32_route (a : igemm_args) (w : world P) (m n k : Z) :
  check_igemm_args a = mkldnn_success ->
  i_M a = Some m -> i_N a = Some n -> i_K a = Some k ->
  m <> 0 -> n <> 0 -> k <> 0 ->
  USE_MKL_IGEMM P = false ->
  gemm_s8x8s32_u8 P a w
  = invoke (if mayiuse P avx512_core then gemm_driver_s8u8 a
            else ref_gemm_s8u8s32 a) w.
Proof.
  intros E HM HN HK Hm Hn Hk Hmkl.
  unfold gemm_s8x8s32_u8, try_cblas_gemm_s8u8s32. rewrite E, Hmkl.
  cbn [status_eqb negb]. unfold bind, deref. rewrite HM, HN, HK.
  apply Z.eqb_neq in Hm, Hn, Hk. rewrite Hm, Hn, Hk. cbn.
  destruct (mayiuse P avx512_core); reflexivity.
Qed.

(** The unsigned path with the vendor integer GEMM: a request that passes
    validation with non-zero extents and non-null zero-point pointers makes
    exactly one call, of [cblas_gemm_s8u8s32], and returns Success; the
    capability oracle plays no part.  With a null [ao] or [bo] the
    zero-point is dereferenced all the same and nothing is returned. *)
Theorem gemm_s8u8s32_vendor_route (a : igemm_args) (w : world P)
    (m n k : Z) :
  check_igemm_args a = mkldnn_success ->
  i_M a = Some m -> i_N a = Some n -> i_K a = Some k ->
  m <> 0 -> n <> 0 -> k <> 0 ->
  USE_MKL_IGEMM P = true ->
  (i_ao a <> None /\ i_bo a <> None ->
   gemm_s8x8s32_u8 P a w
   = Some (mkldnn_success, replay P [cblas_gemm_s8u8s32 a] w))
  /\ (i_ao a = None \/ i_bo a = None -> gemm_s8x8s32_u8 P a w = None).
Proof.
  intros E HM HN HK Hm Hn Hk Hmkl.
  destruct (igemm_scalars a E)
    as (oc & s & Hoc & Hta & Htb & HM' & HN' & HK' & Hla & Hlb & Hlc
        & Hal & Hbe).
  unfold gemm_s8x8s32_u8, try_cblas_gemm_s8u8s32. rewrite E, Hmkl.
  cbn [status_eqb negb]. unfold bind, deref.
  rewrite Hoc, Hta, Htb, HM', HN', HK', Hla, Hlb, Hlc, Hal, Hbe.
  assert (v_M s = m) by congruence. assert (v_N s = n) by congruence.
  assert (v_K s = k) by congruence.
  apply Z.eqb_neq in Hm, Hn, Hk.
  replace (v_M s =? 0) with false by congruence.
  replace (v_N s =? 0) with false by congruence.
  replace (v_K s =? 0) with false by congruence.
  cbn [orb]. split.
  - intros [Hao Hbo].
    destruct (i_ao a) as [ao|]; [|congruence].
    destruct (i_bo a) as [bo|]; [|congruence].
    rewrite invoke_replay. reflexivity.
  - intros [Hao | Hbo].
    + rewrite Hao. reflexivity.
    + rewrite Hbo. destruct (i_ao a); reflexivity.
Qed.

(** The signed path reads both zero-points before it chooses a route: for
    a request that passes validation with non-zero extents, a result is
    returned exactly when neither [ao] nor [bo] is null. *)
Theorem gemm_s8s8s32_reads_zero_points (a : igemm_args) (w : world P)
    (m n k : Z) :
  check_igemm_args a = mkldnn_success ->
  i_M a = Some m -> i_N a = Some n -> i_K a = Some k ->
  m <> 0 -> n <> 0 -> k <> 0 ->
  (gemm_s8x8s32_s8 P a w = None <-> i_ao a = None \/ i_bo a = None).
Proof.
  intros E HM HN HK Hm Hn Hk.
  unfold gemm_s8x8s32_s8. rewrite E.
  cbn [status_eqb negb]. unfold bind, deref. rewrite HM, HN, HK.
  apply Z.eqb_neq in Hm, Hn, Hk. rewrite Hm, Hn, Hk. cbn [orb].
  destruct (i_ao a) as [ao|]; [|split; [now left | reflexivity]].
  destruct (i_bo a) as [bo|]; [|split; [now right | reflexivity]].
  split.
  - intros H. exfalso. revert H. unfold invoke.
    repeat match goal with
           | |- context [if ?c then _ else _] => destruct c
           end;
      match goal with
      | |- context [extern P ?c ?h] => destruct (extern P c h)
      end; discriminate.
  - intros [H | H]; discriminate.
Qed.

(** The real-valued path outside the vendor BLAS: a validated request goes
    to exactly one kernel, chosen by capability; on an ARM build it is
    always the reference kernel, and avx512_mic takes precedence over
    avx. *)
Theorem extended_sgemm_route (a : sgemm_args) (bias : ptr) (force : bool)
    (w : world P) :
  check_sgemm_args a (negb (is_null bias)) = mkldnn_success ->
  USE_CBLAS P && negb force = false ->
  exists c : call,
    extended_sgemm P a bias force w = invoke c w
    /\ (c = jit_avx512_common_gemm_f32 a bias
        <-> ARM_ARCH P = false /\ mayiuse P avx512_mic = true)
    /\ (c = gemm_driver_f32
              (if negb (is_null bias) then Some "C"%char else None)
              a bias force
        <-> ARM_ARCH P = false /\ mayiuse P avx512_mic = false
            /\ mayiuse P avx = true)
    /\ (c = ref_gemm_f32 a bias
        <-> ARM_ARCH P = true
            \/ (mayiuse P avx512_mic = false /\ mayiuse P avx = false)).
Proof.
  intros E Hc. unfold extended_sgemm. rewrite E, Hc.
  cbn [status_eqb negb].
  destruct (ARM_ARCH P); destruct (mayiuse P avx512_mic);
    destruct (mayiuse P avx); cbn [negb andb];
    eexists; (split; [reflexivity|]);
    repeat split; intros; try discriminate; try tauto;
    intuition (try discriminate; try congruence).
Qed.

(** *** The vendor-BLAS route of [extended_sgemm] *)

Lemma for_each_app {T : Type} (l l' : list T) (f : T -> Run P unit)
    (w : world P) :
  for_each P (l ++ l') f w
  = bind P (for_each P l f) (fun _ => for_each P l' f) w.
Proof.
  revert w. induction l as [|x l IH]; intros w; simpl.
  - reflexivity.
  - unfold bind in *. destruct (f x w) as [[[] w1]|]; [apply IH|].
    reflexivity.
Qed.

Lemma for_each_concat {T : Type} (ls : list (list T))
    (f : T -> Run P unit) (w : world P) :
  for_each P ls (fun l => for_each P l f) w = for_each P (concat ls) f w.
Proof.
  revert w. induction ls as [|l ls IH]; intros w; simpl.
  - reflexivity.
  - rewrite for_each_app. unfold bind.
    destruct (for_each P l f w) as [[[] w1]|]; [apply IH | reflexivity].
Qed.

Lemma for_each_invoke {T : Type} (l : list T) (g : T -> call)
    (w : world P) :
  for_each P l (fun x => bind P (invoke (g x)) (fun _ => ret tt)) w
  = Some (tt, replay P (map g l) w).
Proof.
  revert w. induction l as [|x l IH]; intros w; simpl.
  - reflexivity.
  - unfold bind at 1. unfold bind at 1. rewrite invoke_replay.
    unfold ret at 1. rewrite IH. reflexivity.
Qed.

(** Whatever the team size, the workers of the one-dimensional
    [parallel_nd] together run the body at [0, 1, ..., D0 - 1]. *)
Lemma parallel_nd_1_columns (D0 : Z) (f : Z -> Run P unit) (w : world P) :
  0 <= D0 -> 1 <= mkldnn_get_num_threads P ->
  parallel_nd_1 P D0 f w = for_each P (count_up 0 (Z.to_nat D0)) f w.
Proof.
  intros HD Hn. unfold parallel_nd_1.
  rewrite <- (map_id (team (mkldnn_get_num_threads P))) at 1.
  set (nthr := mkldnn_get_num_threads P) in *.
  assert (E : forall l (w : world P),
             for_each P l (fun ithr => for_each P (for_nd_1 ithr nthr D0) f) w
             = for_each P (map (fun ithr => for_nd_1 ithr nthr D0) l)
                 (fun t => for_each P t f) w).
  { induction l as [|x l IH]; intros w0; simpl; [reflexivity|].
    unfold bind. destruct (for_each P (for_nd_1 x nthr D0) f w0)
      as [[[] w1]|]; [apply IH | reflexivity]. }
  rewrite map_id, E, for_each_concat. unfold team.
  change (fun ithr => for_nd_1 ithr nthr D0)
    with (worker_indices D0 nthr).
  rewrite worker_indices_concat by lia.
  rewrite Z2Nat.id by lia. now rewrite range_start_team by lia.
Qed.

(** With the vendor BLAS in use and the no-copy path not forced, a
    validated request makes one call of [cblas_sgemm] and then, when a bias
    is given, one call of [cblas_saxpy] per output column [n = 0 .. N-1],
    each adding the [M] bias values onto the column at [C + n * ldc];
    without a bias no [cblas_saxpy] is made.  The status is Success. *)
Theorem extended_sgemm_vendor_route (a : sgemm_args) (bias : ptr)
    (w : world P) (s : scalars) :
  USE_CBLAS P = true -> 1 <= mkldnn_get_num_threads P ->
  scalars_of a s ->
  check_sgemm_args a (negb (is_null bias)) = mkldnn_success ->
  extended_sgemm P a bias false w
  = Some (mkldnn_success,
          replay P
            (cblas_sgemm (transposed (v_transa s)) (transposed (v_transb s))
               a
             :: match bias with
                | None => []
                | Some _ =>
                    map (fun n => cblas_saxpy (v_M s) bias
                                    (ptr_add (C a) (n * v_ldc s)))
                        (count_up 0 (Z.to_nat (v_N s)))
                end) w).
Proof.
  intros Hblas Hn Hs E.
  assert (HN : 0 <= v_N s).
  { rewrite (check_sgemm_args_scalars a s _ Hs) in E.
    rewrite check_gemm_input_scalars in E.
    destruct (negb (is_null bias) && float_ne_zero (v_beta s));
      [discriminate|].
    destruct (one_of (v_transa s) transpose_flags
              && one_of (v_transb s) transpose_flags
              && (0 <=? v_M s) && (0 <=? v_N s) && (0 <=? v_K s)) eqn:Et;
      [|discriminate].
    apply shape_test_spec in Et. tauto. }
  unfold extended_sgemm. rewrite E, Hblas. cbn [status_eqb negb andb].
  destruct Hs as (Hta & Htb & HM & HN' & _ & _ & _ & Hldc & _ & _).
  unfold bind at 1, deref at 1. rewrite Hta.
  unfold bind at 1, deref at 1. rewrite Htb.
  unfold bind at 1. rewrite invoke_replay.
  rewrite (orb_comm (Ascii.eqb (v_transa s) "t")),
    (orb_comm (Ascii.eqb (v_transb s) "t")).
  fold (transposed (v_transa s)). fold (transposed (v_transb s)).
  set (w1 := replay P [cblas_sgemm (transposed (v_transa s))
                         (transposed (v_transb s)) a] w).
  change (replay P (?c :: ?l) w) with (replay P l (replay P [c] w)).
  fold w1. unfold bind at 1.
  destruct bias as [b|]; cbn [is_null negb].
  - unfold bind at 1, deref at 1. rewrite HN'.
    rewrite parallel_nd_1_columns by assumption.
    rewrite Hldc, HM.
    rewrite (for_each_invoke _
               (fun n => cblas_saxpy (v_M s) (Some b)
                           (ptr_add (C a) (n * v_ldc s)))).
    reflexivity.
  - reflexivity.
Qed.

End Routes.

(** A 2-by-2-by-2 request with a bias on a vendor-BLAS build with three
    threads. *)
Definition blas_platform : platform :=
  {| mem := unit;
     USE_CBLAS := true; USE_MKL_IGEMM := false; ARM_ARCH := true;
     mayiuse := no_isa;
     mkldnn_get_num_threads := 3;
     extern := fun _ h => (mkldnn_success, h) |}.

Lemma extended_sgemm_vendor_route_witness :
  let a := small_request (Some "N"%char) (Some 2) float_zero in
  called (match extended_sgemm blas_platform a (Some 256) false
                  {| heap := tt : mem blas_platform; called := [] |} with
          | Some (_, w) => w
          | None => {| heap := tt : mem blas_platform; called := [] |}
          end)
  = [cblas_sgemm false false a;
     cblas_saxpy 2 (Some 256) (Some 128);
     cblas_saxpy 2 (Some 256) (Some 130)].
Proof.
  intros a.
  rewrite (extended_sgemm_vendor_route blas_platform a (Some 256) _
             (scalars_of_small "N" 2 float_zero) eq_refl ltac:(simpl; lia)
             (small_request_scalars "N" 2 float_zero) eq_refl).
  reflexivity.
Defined.

Lemma gemm_s8u8s32_route_witness :
  gemm_s8x8s32_u8 (plain_platform all_isa)
    (small_irequest 1 None None None) (empty_world all_isa)
  = invoke (gemm_driver_s8u8 (small_irequest 1 None None None))
      (empty_world all_isa).
Proof.
  apply (gemm_s8u8s32_route (plain_platform all_isa) _ _ 1 2 2);
    try reflexivity; lia.
Defined.

Definition mkl_platform : platform :=
  {| mem := unit;
     USE_CBLAS := true; USE_MKL_IGEMM := true; ARM_ARCH := false;
     mayiuse := all_isa;
     mkldnn_get_num_threads := 1;
     extern := fun _ h => (mkldnn_unimplemented, h) |}.

(** The vendor call's own status is not looked at. *)
Lemma gemm_s8u8s32_vendor_route_witness :
  let a := small_irequest 2 (Some 0) (Some 0) (Some 0) in
  let w : world mkl_platform := {| heap := tt : mem mkl_platform;
                                   called := [] |} in
  gemm_s8x8s32_u8 mkl_platform a w
  = Some (mkldnn_success, replay mkl_platform [cblas_gemm_s8u8s32 a] w).
Proof.
  intros a w.
  apply (proj1 (gemm_s8u8s32_vendor_route mkl_platform a w 2 2 2
                  eq_refl eq_refl eq_refl eq_refl
                  ltac:(lia) ltac:(lia) ltac:(lia) eq_refl)).
  split; discriminate.
Defined.

Lemma gemm_s8s8s32_reads_zero_points_witness :
  gemm_s8x8s32_s8 (plain_platform all_isa)
    (small_irequest 2 (Some 0) None (Some 0)) (empty_world all_isa)
  = None.
Proof.
  apply (gemm_s8s8s32_reads_zero_points (plain_platform all_isa) _ _ 2 2 2);
    try reflexivity; try lia.
  left. reflexivity.
Defined.

Lemma extended_sgemm_route_witness :
  exists c : call,
    extended_sgemm (plain_platform all_isa)
      (small_request (Some "N"%char) (Some 2) float_zero) None false
      (empty_world all_isa)
    = invoke c (empty_world all_isa)
    /\ c = ref_gemm_f32
             (small_request (Some "N"%char) (Some 2) float_zero) None.
Proof.
  destruct (extended_sgemm_route (plain_platform all_isa)
              (small_request (Some "N"%char) (Some 2) float_zero) None false
              (empty_world all_isa) eq_refl eq_refl)
    as [c [Hrun [_ [_ Href]]]].
  exists c. split; [exact Hrun|]. apply Href. left. reflexivity.
Defined.

End GemmMore.

(** ** More on the kernel emitter *)

Module JitMore.

Import Jit JitFacts JitOps.

Lemma run_app (c1 c2 : list insn) (m : machine) :
  run (c1 ++ c2) m = run c2 (run c1 m).
Proof. unfold run. apply fold_left_app. Qed.

Lemma word64_idem_add_l (a b : Z) : word64 (word64 a + b) = word64 (a + b).
Proof. unfold word64. apply Zplus_mod_idemp_l. Qed.

Lemma word64_idem_add_r (a b : Z) : word64 (a + word64 b) = word64 (a + b).
Proof. unfold word64. apply Zplus_mod_idemp_r. Qed.

Lemma word64_idem_sub_l (a b : Z) : word64 (word64 a - b) = word64 (a - b).
Proof. unfold word64. apply Zminus_mod_idemp_l. Qed.

Lemma word64_idem_mul_l (a b : Z) : word64 (word64 a * b) = word64 (a * b).
Proof. unfold word64. apply Z.mul_mod_idemp_l. lia. Qed.

Lemma word64_idem (a : Z) : word64 (word64 a) = word64 a.
Proof. unfold word64. apply Z.mod_mod. lia. Qed.

(** [EVEX_compress_addr] on any [int] offset, negative ones included:
    with rbp = 0x400 the returned 512-bit address, whose broadcast flag is
    [bcast], denotes [base + offt]. *)
Theorem EVEX_compress_addr_any_int (f : Reg64 -> Z) (base : Reg64)
    (offt : Z) (bcast : bool) :
  f rbp = 1024 -> INT_MIN <= offt <= INT_MAX ->
  let a := EVEX_compress_addr base offt bcast in
  effective_address f a = word64 (f base + offt)
  /\ bit_ a = 512 /\ broadcast_ a = bcast.
Proof.
  intros Hrbp Hoff a. subst a.
  unfold EVEX_compress_addr, static_cast_int.
  rewrite wrap_int_small by assumption.
  unfold EVEX_max_8b_offt, reg_EVEX_max_8b_offt.
  change (3 * 512) with 1536. change (5 * 512) with 2560.
  change (2 * 512) with 1024. change (4 * 512) with 2048.
  destruct (Z.leb_spec 512 offt); destruct (Z.ltb_spec offt 1536);
    cbn [andb];
    try (destruct (Z.leb_spec 1536 offt); destruct (Z.ltb_spec offt 2560);
         cbn [andb]);
    destruct bcast; unfold effective_address; cbn; rewrite ?Hrbp;
    repeat split; f_equal; lia.
Qed.

Lemma EVEX_compress_addr_any_int_witness :
  effective_address (fun _ => 1024) (EVEX_compress_addr rax (-64) true)
  = word64 (1024 + -64).
Proof.
  apply (EVEX_compress_addr_any_int (fun _ => 1024) rax (-64) true
           eq_refl).
  unfold INT_MIN, INT_MAX. lia.
Defined.

(** What the compression is for: for every offset in [[0, 0xA00)] the
    displacement that is encoded lies in [[-0x200, 0x200)]; an offset
    outside that interval is encoded as it is. *)
Theorem EVEX_compress_addr_displacement (base : Reg64) (offt : Z)
    (bcast : bool) :
  INT_MIN <= offt <= INT_MAX ->
  let disp := disp_ (e_ (EVEX_compress_addr base offt bcast)) in
  (0 <= offt < 2560 -> -512 <= disp < 512)
  /\ (offt < 512 \/ 2560 <= offt -> disp = offt).
Proof.
  intros Hoff disp. subst disp.
  unfold EVEX_compress_addr, static_cast_int.
  rewrite wrap_int_small by assumption.
  unfold EVEX_max_8b_offt, reg_EVEX_max_8b_offt.
  change (3 * 512) with 1536. change (5 * 512) with 2560.
  change (2 * 512) with 1024. change (4 * 512) with 2048.
  destruct (Z.leb_spec 512 offt); destruct (Z.ltb_spec offt 1536);
    cbn [andb];
    try (destruct (Z.leb_spec 1536 offt); destruct (Z.ltb_spec offt 2560);
         cbn [andb]);
    destruct bcast; cbn; split; intros; lia.
Qed.

Lemma EVEX_compress_addr_displacement_witness :
  -512 <= disp_ (e_ (EVEX_compress_addr rax 2559 false)) < 512.
Proof.
  apply (EVEX_compress_addr_displacement rax 2559 false);
    unfold INT_MIN, INT_MAX; lia.
Defined.

(** [EVEX_compress_addr_safe] on every [size_t] offset: with rbp = 0x400
    and an offset register other than the base, the address it returns,
    read after the code it emits, denotes [base + raw_offt]. *)
Theorem EVEX_compress_addr_safe_correct (m : machine)
    (base reg_offt : Reg64) (raw_offt : Z) (bcast : bool) :
  regs m rbp = 1024 -> base <> reg_offt -> 0 <= raw_offt < 2 ^ 64 ->
  let code := fst (EVEX_compress_addr_safe base raw_offt reg_offt bcast) in
  let a := snd (EVEX_compress_addr_safe base raw_offt reg_offt bcast) in
  effective_address (regs (run code m)) a = word64 (regs m base + raw_offt)
  /\ (raw_offt <= INT_MAX -> code = []).
Proof.
  intros Hrbp Hne Hoff code a. subst code a.
  unfold EVEX_compress_addr_safe.
  destruct (Z.ltb_spec INT_MAX raw_offt) as [Hbig | Hsmall].
  - split; [|lia].
    now rewrite (make_safe_addr_denotes m base reg_offt raw_offt bcast).
  - cbn [fst snd]. split; [|reflexivity].
    unfold run. cbn [fold_left].
    now apply EVEX_compress_addr_bands; [|lia].
Qed.

Lemma EVEX_compress_addr_safe_correct_witness :
  let m := {| regs := fun _ => 1024; stack := [] |} in
  effective_address
    (regs (run (fst (EVEX_compress_addr_safe rax (2 ^ 40) rcx false)) m))
    (snd (EVEX_compress_addr_safe rax (2 ^ 40) rcx false))
  = word64 (1024 + 2 ^ 40).
Proof.
  intros m.
  apply (EVEX_compress_addr_safe_correct m rax rcx (2 ^ 40) false eq_refl).
  - discriminate.
  - lia.
Defined.

(** [safe_sub] undoes [safe_add]: with the same offset and a scratch
    register other than the base, the base register is back at its value
    and every register other than the scratch register is as it was. *)
Theorem safe_add_then_safe_sub (m : machine) (base scratch : Reg64)
    (offt : Z) :
  base <> scratch -> 0 <= offt < 2 ^ 64 -> 0 <= regs m base < 2 ^ 64 ->
  let m' := run (safe_add base offt scratch ++ safe_sub base offt scratch)
              m in
  (forall r, r <> scratch -> regs m' r = regs m r)
  /\ stack m' = stack m.
Proof.
  intros Hne Hoff Hbase m'. subst m'. rewrite run_app. split.
  - intros r Hr.
    rewrite safe_sub_regs by assumption. unfold direct_sub.
    destruct (Reg64_eq_dec r base) as [-> | Hrb].
    + rewrite set_reg_same, safe_add_regs by assumption.
      unfold direct_add. rewrite set_reg_same, word64_idem_sub_l.
      replace (regs m base + offt - offt) with (regs m base) by lia.
      now apply word64_small.
    + rewrite set_reg_other, safe_add_regs by assumption.
      unfold direct_add. now rewrite set_reg_other.
  - unfold safe_add, safe_sub, run.
    destruct (Z.ltb_spec INT_MAX offt); reflexivity.
Qed.

Lemma safe_add_then_safe_sub_witness :
  let m := {| regs := fun _ => 4096; stack := [] |} in
  regs (run (safe_add rax (2 ^ 33) rcx ++ safe_sub rax (2 ^ 33) rcx) m) rax
  = 4096.
Proof.
  intros m.
  apply (proj1 (safe_add_then_safe_sub m rax rcx (2 ^ 33)
                  ltac:(discriminate) ltac:(lia) ltac:(simpl; lia))).
  discriminate.
Defined.

(** *** [mul_by_const] *)

Lemma run_ops_app (c1 c2 : list op) (m : machine) :
  run_ops (c1 ++ c2) m
  = match run_ops c1 m with
    | Some m' => run_ops c2 m'
    | None => None
    end.
Proof.
  revert m. induction c1 as [|o c1 IH]; intros m; simpl.
  - reflexivity.
  - destruct (step o m); [apply IH | reflexivity].
Qed.

Lemma land_1_mod (v : Z) : Z.land v 1 = v mod 2.
Proof. change 1 with (Z.ones 1). now rewrite Z.land_ones by lia. Qed.

Lemma land_63_small (c : Z) : 0 <= c < 64 -> Z.land c 63 = c.
Proof.
  intros H. change 63 with (Z.ones 6). rewrite Z.land_ones by lia.
  apply Z.mod_small. lia.
Qed.

Lemma shiftr_1_div (v : Z) : Z.shiftr v 1 = v / 2.
Proof. now rewrite Z.shiftr_div_pow2 by lia. Qed.

Section MulByConst.

Variables out tmp : Reg64.
Hypothesis out_tmp : out <> tmp.

(** The loop adds [x * value * 2^p] to the accumulator [tmp], where [out]
    holds [x * 2^old_p] on entry. *)
Lemma mul_by_const_loop_spec (fuel : nat) :
  forall value p old_p : Z,
    0 <= value < 2 ^ Z.of_nat fuel ->
    0 <= old_p <= p -> p + Z.of_nat fuel <= 64 ->
    exists code,
      mul_by_const_loop fuel out tmp value p old_p = Some code
      /\ forall (m : machine) (x acc : Z),
           word64 (regs m out) = word64 (x * 2 ^ old_p) ->
           regs m tmp = word64 acc ->
           exists m',
             run_ops code m = Some m'
             /\ regs m' tmp = word64 (acc + x * value * 2 ^ p)
             /\ (forall r, r <> out -> r <> tmp -> regs m' r = regs m r)
             /\ stack m' = stack m.
Proof.
  induction fuel as [|fuel IH]; intros value p old_p Hv Hp Hfuel.
  - assert (value = 0) by (simpl in Hv; lia). subst value.
    exists []. split; [reflexivity|]. intros m x acc Hout Htmp.
    exists m. repeat split; try reflexivity.
    rewrite Htmp. f_equal. lia.
  - cbn [mul_by_const_loop].
    destruct (Z.eqb_spec value 0) as [-> | Hnz].
    + exists []. split; [reflexivity|]. intros m x acc Hout Htmp.
      exists m. repeat split; try reflexivity.
      rewrite Htmp. f_equal. lia.
    + rewrite land_1_mod, shiftr_1_div.
      pose proof (Z.div_mod value 2 ltac:(lia)) as Hdm.
      pose proof (Z.mod_pos_bound value 2 ltac:(lia)) as Hmod.
      assert (Hv' : 0 <= value / 2 < 2 ^ Z.of_nat fuel).
      { rewrite Nat2Z.inj_succ, Z.pow_succ_r in Hv by lia.
        split; [apply Z.div_pos; lia|].
        apply Z.div_lt_upper_bound; lia. }
      destruct (Z.eqb_spec (value mod 2) 0) as [Heven | Hodd]; cbn [negb].
      * (* bit clear *)
        destruct (IH (value / 2) (p + 1) old_p Hv' ltac:(lia) ltac:(lia))
          as [rest [Hrest Hspec]].
        rewrite Hrest. exists rest. split; [reflexivity|].
        intros m x acc Hout Htmp.
        destruct (Hspec m x acc Hout Htmp) as [m' [Hrun [Ht [Hfr Hst]]]].
        exists m'. repeat split; try assumption.
        rewrite Ht. f_equal. rewrite Z.pow_add_r by lia. nia.
      * (* bit set *)
        assert (Hbit : value mod 2 = 1) by lia.
        destruct (Z.eqb_spec (p - old_p) 0) as [Hsame | Hshift]; cbn [negb].
        -- destruct (IH (value / 2) (p + 1) old_p Hv' ltac:(lia)
                       ltac:(lia)) as [rest [Hrest Hspec]].
           rewrite Hrest. eexists. split; [reflexivity|].
           intros m x acc Hout Htmp.
           assert (old_p = p) by lia. subst old_p.
           cbn [app run_ops step exec regs stack operand_value].
           match goal with
           | |- exists m', run_ops rest ?m1 = _ /\ _ =>
               destruct (Hspec m1 x (acc + x * 2 ^ p))
                 as [m' [Hrun [Ht [Hfr Hst]]]]
           end.
           { cbn [regs]. now rewrite set_reg_other by congruence. }
           { cbn [regs]. rewrite set_reg_same, Htmp.
             rewrite word64_idem_add_l, <- word64_idem_add_r, Hout.
             now rewrite word64_idem_add_r. }
           exists m'. split; [exact Hrun|]. split; [|split].
           ++ rewrite Ht. f_equal. rewrite Z.pow_add_r by lia. nia.
           ++ intros r Hro Hrt. rewrite Hfr by assumption.
              cbn [regs]. now rewrite set_reg_other.
           ++ rewrite Hst. reflexivity.
        -- destruct (IH (value / 2) (p + 1) p Hv' ltac:(lia) ltac:(lia))
             as [rest [Hrest Hspec]].
           rewrite Hrest. eexists. split; [reflexivity|].
           intros m x acc Hout Htmp.
           cbn [app run_ops step exec regs stack operand_value].
           rewrite land_63_small by lia.
           rewrite Z.shiftl_mul_pow2 by lia.
           assert (Hshl : word64 (regs m out * 2 ^ (p - old_p))
                          = word64 (x * 2 ^ p)).
           { rewrite <- word64_idem_mul_l, Hout, word64_idem_mul_l.
             f_equal. rewrite <- Z.mul_assoc, <- Z.pow_add_r by lia.
             do 2 f_equal. lia. }
           match goal with
           | |- exists m', run_ops rest ?m1 = _ /\ _ =>
               destruct (Hspec m1 x (acc + x * 2 ^ p))
                 as [m' [Hrun [Ht [Hfr Hst]]]]
           end.
           { cbn [regs]. rewrite set_reg_other by congruence.
             rewrite set_reg_same, word64_idem. exact Hshl. }
           { cbn [regs]. rewrite set_reg_same.
             rewrite (set_reg_other _ out tmp) by congruence.
             rewrite set_reg_same, Htmp, Hshl.
             now rewrite word64_idem_add_l, word64_idem_add_r. }
           exists m'. split; [exact Hrun|]. split; [|split].
           ++ rewrite Ht. f_equal. rewrite Z.pow_add_r by lia. nia.
           ++ intros r Hro Hrt. rewrite Hfr by assumption.
              cbn [regs]. now rewrite !set_reg_other by assumption.
           ++ rewrite Hst. reflexivity.
Qed.

End MulByConst.

(** [mul_by_const] multiplies: for a constant [0 <= value <= INT_MAX] and
    a temporary register other than [out], the loop ends within 31
    iterations and the emitted shift-and-add sequence leaves
    [out * value] (modulo 2^64) in [out] and in [tmp]; the other registers
    and the stack are as they were. *)
Theorem mul_by_const_correct (fuel : nat) (out tmp : Reg64) (value : Z)
    (m : machine) :
  out <> tmp -> 0 <= value <= INT_MAX -> (31 <= fuel <= 64)%nat ->
  exists code m',
    mul_by_const fuel out tmp value = Some code
    /\ run_ops code m = Some m'
    /\ regs m' out = word64 (regs m out * value)
    /\ regs m' tmp = word64 (regs m out * value)
    /\ (forall r, r <> out -> r <> tmp -> regs m' r = regs m r)
    /\ stack m' = stack m.
Proof.
  intros Hne Hv Hfuel. unfold mul_by_const.
  destruct (mul_by_const_loop_spec out tmp Hne fuel value 0 0)
    as [body [Hbody Hspec]].
  - unfold INT_MAX in Hv. split; [lia|].
    apply Z.lt_le_trans with (2 ^ 31); [lia|].
    apply Z.pow_le_mono_r; lia.
  - lia.
  - lia.
  - rewrite Hbody. eexists. 
    set (m0 := {| regs := set_reg (regs m) tmp
                            (Z.lxor (regs m tmp) (regs m tmp));
                  stack := stack m |}).
    destruct (Hspec m0 (regs m out) 0) as [m1 [Hrun [Ht [Hfr Hst]]]].
    + subst m0. cbn [regs]. rewrite set_reg_other by congruence.
      f_equal. rewrite Z.pow_0_r. lia.
    + subst m0. cbn [regs]. now rewrite set_reg_same, Z.lxor_nilpotent.
    + eexists. split; [reflexivity|].
      cbn [run_ops step]. fold m0. rewrite run_ops_app, Hrun.
      cbn [run_ops step]. split; [reflexivity|].
      cbn [regs stack].
      assert (Hval : regs m1 tmp = word64 (regs m out * value)).
      { rewrite Ht. f_equal. rewrite Z.pow_0_r. lia. }
      split; [now rewrite set_reg_same|].
      split; [now rewrite set_reg_other by congruence|].
      split.
      * intros r Hro Hrt. rewrite set_reg_other by assumption.
        rewrite Hfr by assumption. subst m0. cbn [regs].
        now rewrite set_reg_other.
      * rewrite Hst. reflexivity.
Qed.

(** Seven times 6 in rax, with rcx as temporary. *)
Lemma mul_by_const_correct_witness :
  exists code m',
    mul_by_const 31 rax rcx 6 = Some code
    /\ run_ops code {| regs := fun _ => 7; stack := [] |} = Some m'
    /\ regs m' rax = 42.
Proof.
  destruct (mul_by_const_correct 31 rax rcx 6
              {| regs := fun _ => 7; stack := [] |}
              ltac:(discriminate) ltac:(unfold INT_MAX; lia) ltac:(lia))
    as [code [m' [Hc [Hr [Hout _]]]]].
  exists code, m'. repeat split; assumption.
Defined.

(** On a negative constant the loop of [mul_by_const] never ends: [value]
    stays negative under the arithmetic shift, so no number of iterations
    completes the code. *)
Theorem mul_by_const_negative (fuel : nat) (out tmp : Reg64) (value : Z) :
  value < 0 -> mul_by_const fuel out tmp value = None.
Proof.
  intros Hneg. unfold mul_by_const.
  assert (H : forall p old_p,
             mul_by_const_loop fuel out tmp value p old_p = None).
  { revert value Hneg. induction fuel as [|fuel IH]; intros value Hneg p old_p;
      cbn [mul_by_const_loop];
      (destruct (Z.eqb_spec value 0); [lia|]); [reflexivity|].
    assert (Hs : Z.shiftr value 1 < 0) by (now apply Z.shiftr_neg).
    destruct (negb (Z.land value 1 =? 0));
      [destruct (negb (p - old_p =? 0))|]; now rewrite IH. }
  now rewrite H.
Qed.

Lemma mul_by_const_negative_witness :
  mul_by_const 1000 rax rcx (-1) = None.
Proof. apply mul_by_const_negative. lia. Defined.

(** *** [get_cache_size] *)

(** A level outside the known ones has size 0: with no cache topology
    every level other than 1, 2, 3, and with a topology of [n] levels
    every level below 1 or above [n].  Level 0 is among them through the
    wrap-around of [level - 1] to [unsigned int]. *)
Theorem get_cache_size_unknown_level (cpu : Cpu) (max_threads level : Z)
    (per_core : bool) :
  INT_MIN < level <= INT_MAX ->
  0 <= getDataCacheLevels cpu <= INT_MAX ->
  (if getDataCacheLevels cpu =? 0 then level < 1 \/ 3 < level
   else level < 1 \/ getDataCacheLevels cpu < level) ->
  get_cache_size cpu max_threads level per_core = Some 0.
Proof.
  unfold INT_MIN, INT_MAX. intros Hl Hn Hout. unfold get_cache_size.
  rewrite wrap_int_small by (unfold INT_MIN, INT_MAX; lia).
  unfold to_unsigned.
  assert (Hmod : (level - 1) mod 2 ^ 32
                 = if level <? 1 then level - 1 + 2 ^ 32 else level - 1).
  { destruct (Z.ltb_spec level 1).
    - symmetry. apply (Z.mod_unique _ _ (-1)); lia.
    - apply Z.mod_small. lia. }
  rewrite Hmod.
  destruct (Z.eqb_spec (getDataCacheLevels cpu) 0) as [E | E].
  - destruct (Z.ltb_spec level 1);
      repeat match goal with
             | |- context [?a =? ?b] => destruct (Z.eqb_spec a b); try lia
             end; reflexivity.
  - destruct (Z.ltb_spec level 1);
      match goal with
      | |- context [?a <? ?b] => destruct (Z.ltb_spec a b); try lia
      end; reflexivity.
Qed.

Lemma get_cache_size_unknown_level_witness :
  get_cache_size
    {| getDataCacheLevels := 2;
       getDataCacheSize := fun _ => 65536;
       getCoresSharingDataCache := fun _ => 1 |} 4 0 true
  = Some 0.
Proof.
  apply get_cache_size_unknown_level;
    unfold INT_MIN, INT_MAX; simpl; lia.
Defined.

(** *** Broadcasts *)

Section Broadcast.

Variable V : Type.
Variable zero : V.
Variable address_idx : nat.

Ltac lanes l :=
  do 8 (destruct l as [|l]; [cbn; reflexivity|]); cbn; reflexivity.

(** [uni_vbroadcastss] on an Xmm register puts the scalar of the operand
    (lane 0 of a register, the 32-bit value at an address) into the four
    low lanes of [x]; it changes nothing else. *)
Theorem uni_vbroadcastss_xmm_spec (mem : vmemory V) (v : vregs V)
    (x : nat) (o : voperand) (r l : nat) :
  vrun V zero mem (uni_vbroadcastss_xmm x o) v r l
  = if Nat.eqb r x
    then (if Nat.ltb l 4 then lane V v mem o 0 else v x l)
    else v r l.
Proof.
  unfold uni_vbroadcastss_xmm, vrun. cbn [fold_left].
  unfold vexec, set_vreg.
  destruct (Nat.eqb r x) eqn:E; [|reflexivity].
  rewrite !Nat.eqb_refl. destruct o as [s | addr]; lanes l.
Qed.

(** [uni_vbroadcastss] on a Ymm register: the sequence synthesised without
    avx2 for a register operand (a scalar move unless the operand is the
    destination itself, then an insert of the low half into the high half
    and an in-lane shuffle) leaves the register file exactly as the native
    [vbroadcastss] does. *)
Theorem uni_vbroadcastss_ymm_native (has_avx2 : bool) (mem : vmemory V)
    (v : vregs V) (x : nat) (o : voperand) (r l : nat) :
  vrun V zero mem (uni_vbroadcastss_ymm address_idx has_avx2 x o) v r l
  = vrun V zero mem [vbroadcastss x o] v r l.
Proof.
  unfold uni_vbroadcastss_ymm.
  destruct o as [s | addr]; [|reflexivity].
  destruct has_avx2; [reflexivity|]. cbn [isMEM orb getIdx].
  destruct (Nat.eqb x s) eqn:Exs; cbn [negb app]; unfold vrun;
    cbn [fold_left]; unfold vexec, set_vreg;
    (destruct (Nat.eqb r x) eqn:E; [|reflexivity]);
    rewrite ?Nat.eqb_refl.
  - apply Nat.eqb_eq in Exs. subst s. cbn [lane]. lanes l.
  - cbn [lane]. lanes l.
Qed.

(** [uni_vpbroadcastd] on an Xmm register puts the 32-bit value of the
    operand into the four low lanes of [x]; it changes nothing else. *)
Theorem uni_vpbroadcastd_xmm_spec (mem : vmemory V) (v : vregs V)
    (x : nat) (o : voperand) (r l : nat) :
  vrun V zero mem (uni_vpbroadcastd_xmm x o) v r l
  = if Nat.eqb r x
    then (if Nat.ltb l 4 then lane V v mem o 0 else v x l)
    else v r l.
Proof.
  unfold uni_vpbroadcastd_xmm, vrun. cbn [fold_left].
  unfold vexec, set_vreg.
  destruct (Nat.eqb r x) eqn:E; [|reflexivity].
  cbn [lane]. rewrite !Nat.eqb_refl. destruct o as [s | addr]; lanes l.
Qed.

(** [uni_vpbroadcastd] on a Ymm register: the sequence synthesised without
    avx2 leaves the register file exactly as the native [vpbroadcastd]
    does, for a register operand and for a memory operand loaded into a
    destination whose index is not the one [getIdx] gives an address (the
    load is skipped when the two indices agree). *)
Theorem uni_vpbroadcastd_ymm_native (has_avx2 : bool) (mem : vmemory V)
    (v : vregs V) (x : nat) (o : voperand) (r l : nat) :
  (isMEM o = true -> x <> address_idx) ->
  vrun V zero mem (uni_vpbroadcastd_ymm address_idx has_avx2 x o) v r l
  = vrun V zero mem [vpbroadcastd x o] v r l.
Proof.
  intros Hmem. unfold uni_vpbroadcastd_ymm.
  destruct has_avx2; [reflexivity|].
  destruct o as [s | addr]; cbn [getIdx].
  - destruct (Nat.eqb x s) eqn:Exs; cbn [negb app]; unfold vrun;
      cbn [fold_left]; unfold vexec, set_vreg;
      (destruct (Nat.eqb r x) eqn:E; [|reflexivity]);
      rewrite ?Nat.eqb_refl.
    + apply Nat.eqb_eq in Exs. subst s. cbn [lane]. lanes l.
    + cbn [lane]. lanes l.
  - assert (Exa : Nat.eqb x address_idx = false)
      by (apply Nat.eqb_neq; now apply Hmem).
    rewrite Exa. cbn [negb app]. unfold vrun. cbn [fold_left].
    unfold vexec, set_vreg.
    destruct (Nat.eqb r x) eqn:E; [|reflexivity].
    rewrite ?Nat.eqb_refl. lanes l.
Qed.

End Broadcast.

(** A load from memory into ymm1 when an address has index 0. *)
Lemma uni_vpbroadcastd_ymm_native_witness :
  vrun Z 0 (fun a => a) (uni_vpbroadcastd_ymm 0 false 1 (vmem 64))
    (fun _ _ => 5) 1%nat 7%nat
  = vrun Z 0 (fun a => a) [vpbroadcastd 1 (vmem 64)] (fun _ _ => 5)
      1%nat 7%nat.
Proof.
  apply (uni_vpbroadcastd_ymm_native Z 0 0%nat false (fun a => a)
           (fun _ _ => 5) 1%nat (vmem 64) 1%nat 7%nat).
  intros _. discriminate.
Defined.

End JitMore.

(** ** More on the parallel executor *)

Module ParallelNdMore.

Import ParallelNd ParallelNdFacts.

(** The loop nest over the extents, outermost first: the tuples in the
    order in which nested sequential [for] loops reach them. *)
Fixpoint loop_nest (Ds : list Z) : list (list Z) :=
  match Ds with
  | [] => [[]]
  | D :: Ds' =>
      flat_map (fun d => map (cons d) (loop_nest Ds'))
               (count_up 0 (Z.to_nat D))
  end.

(** The decomposition of [a * product + b]. *)
Lemma nd_iterator_init_block (Ds : list Z) :
  Forall (fun D => 0 < D) Ds ->
  forall a b : Z,
    nd_iterator_init (a * product Ds + b) Ds
    = (a + fst (nd_iterator_init b Ds), snd (nd_iterator_init b Ds)).
Proof.
  induction 1 as [|D Ds HD _ IH]; intros a b; simpl.
  - f_equal. lia.
  - replace (a * (D * product Ds) + b) with (a * D * product Ds + b)
      by lia.
    rewrite IH. destruct (nd_iterator_init b Ds) as [q xs]. simpl.
    f_equal.
    + rewrite (Z.add_comm (a * D)), Z_div_plus_full by lia. lia.
    + f_equal. rewrite (Z.add_comm (a * D)). apply Z_mod_plus_full.
Qed.

Lemma coord_block (D : Z) (Ds : list Z) (a b : Z) :
  Forall (fun D => 0 < D) (D :: Ds) ->
  0 <= a < D -> 0 <= b < product Ds ->
  coord (D :: Ds) (a * product Ds + b) = a :: coord Ds b.
Proof.
  intros Hpos Ha Hb. inversion Hpos as [|? ? HD Hpos']; subst.
  unfold coord. simpl. rewrite nd_iterator_init_block by assumption.
  pose proof (nd_iterator_init_linear Ds Hpos' b) as E.
  pose proof (linear_index_bound _ _ (coord_in_box Ds b Hpos')) as Hlin.
  assert (Hq : fst (nd_iterator_init b Ds) = 0) by (unfold coord in *; nia).
  destruct (nd_iterator_init b Ds) as [q xs]. simpl in *. subst q.
  rewrite Z.add_0_r. f_equal. now apply Z.mod_small.
Qed.

(** The indices below [k * P], block by block. *)
Lemma count_up_blocks (P : Z) (k : nat) :
  0 <= P ->
  count_up 0 (Z.to_nat (Z.of_nat k * P))
  = flat_map (fun a => count_up (a * P) (Z.to_nat P)) (count_up 0 k).
Proof.
  intros HP. induction k as [|k IH].
  - reflexivity.
  - rewrite count_up_snoc, flat_map_app, <- IH. cbn [flat_map].
    rewrite app_nil_r, Z.add_0_l.
    replace (Z.to_nat (Z.of_nat (S k) * P))
      with (Z.to_nat (Z.of_nat k * P) + Z.to_nat P)%nat by nia.
    rewrite count_up_app. do 2 f_equal. nia.
Qed.

Lemma count_up_shift (a : Z) (n : nat) :
  count_up a n = map (fun b => a + b) (count_up 0 n).
Proof.
  revert a. induction n as [|n IH]; intros a; simpl.
  - reflexivity.
  - rewrite Z.add_0_r. f_equal. rewrite (IH (a + 1)), (IH 1).
    rewrite map_map. apply map_ext. intros b. lia.
Qed.

(** The decompositions of [0, 1, ..., product - 1] are the loop nest. *)
Lemma coord_enumeration_loop_nest (Ds : list Z) :
  Forall (fun D => 0 < D) Ds ->
  map (coord Ds) (count_up 0 (Z.to_nat (product Ds))) = loop_nest Ds.
Proof.
  induction 1 as [|D Ds HD Hpos IH].
  - reflexivity.
  - simpl product. simpl loop_nest. rewrite <- IH.
    assert (HP : 0 <= product Ds)
      by (apply product_nonneg; eapply Forall_impl; [|exact Hpos];
          simpl; intros; lia).
    replace (D * product Ds) with (Z.of_nat (Z.to_nat D) * product Ds)
      by (rewrite Z2Nat.id; lia).
    rewrite count_up_blocks by assumption.
    rewrite !flat_map_concat_map, concat_map, map_map. f_equal.
    apply map_ext_in.
    intros a Ha. apply count_up_In in Ha.
    rewrite (count_up_shift (a * product Ds)), !map_map.
    apply map_ext_in. intros b Hb. apply count_up_In in Hb.
    apply coord_block; [now constructor | lia | lia].
Qed.

Lemma loop_nest_zero (Ds : list Z) :
  Forall (fun D => 0 <= D) Ds -> product Ds = 0 -> loop_nest Ds = [].
Proof.
  induction 1 as [|D Ds HD Hnn IH]; simpl; intros Hp; [lia|].
  destruct (Z.eq_dec D 0) as [-> | HD0]; [reflexivity|].
  rewrite IH by nia.
  induction (count_up 0 (Z.to_nat D)) as [|d l IHl]; simpl; auto.
Qed.

(** [for_nd] is the sequential loop nest, cut into ranges: for one to six
    extents whose product fits in [size_t] and any team of [nthr >= 1]
    workers (with [balance211] and the coordinate iterators as the spec
    describes them), the workers' invocations, taken worker after worker,
    are the tuples of the nested loops over the extents, in that order; so
    the coordinates visited do not depend on the team size. *)
Theorem for_nd_is_loop_nest (nthr : Z) (Ds : list Z) :
  1 <= nthr -> (1 <= length Ds <= 6)%nat ->
  Forall (fun D => 0 <= D) Ds -> product Ds < 2 ^ 64 ->
  all_invocations nthr Ds = loop_nest Ds
  /\ for_nd 0 1 Ds = Some (loop_nest Ds).
Proof.
  intros Hn Hlen Hnn Hfit.
  assert (Hseq : map (coord Ds) (count_up 0 (Z.to_nat (product Ds)))
                 = loop_nest Ds).
  { pose proof (product_nonneg Ds Hnn) as Hp.
    destruct (Z.eq_dec (product Ds) 0) as [E | E].
    - rewrite E, loop_nest_zero by assumption. reflexivity.
    - apply coord_enumeration_loop_nest.
      apply product_pos_all; [assumption | lia]. }
  split.
  - now rewrite all_invocations_eq.
  - rewrite for_nd_trace by (assumption || lia). f_equal.
    rewrite <- Hseq. f_equal.
    pose proof (product_nonneg Ds Hnn) as Hp.
    unfold worker_indices. rewrite balance211_next.
    rewrite range_start_0 by lia.
    change (0 + 1) with 1. rewrite range_start_team by lia.
    now rewrite Z.sub_0_r.
Qed.

(** A 2-by-3 space over four workers. *)
Lemma for_nd_is_loop_nest_witness :
  all_invocations 4 [2; 3]
  = [[0; 0]; [0; 1]; [0; 2]; [1; 0]; [1; 1]; [1; 2]].
Proof.
  apply (proj1 (for_nd_is_loop_nest 4 [2; 3] ltac:(lia)
                  ltac:(simpl; lia)
                  ltac:(repeat constructor; lia)
                  ltac:(simpl; lia))).
Defined.

End ParallelNdMore.

(** ** Prologue and epilogue of the AArch64 build *)

Module JitA64Facts.

Import Jit JitA64.

Lemma store_same (mem : Z -> Z) (a v : Z) : store mem a v a = v.
Proof. unfold store. now rewrite Z.eqb_refl. Qed.

Lemma store_other (mem : Z -> Z) (a a' v : Z) :
  a' <> a -> store mem a v a' = mem a'.
Proof. intros H. unfold store. now apply Z.eqb_neq in H as ->. Qed.

Lemma store_eq (mem : Z -> Z) (a a' v : Z) :
  a' = a -> store mem a v a' = v.
Proof. intros ->. apply store_same. Qed.

Lemma word64_in_range (z : Z) : 0 <= z < 2 ^ 64 -> word64 z = z.
Proof. intros H. unfold word64. now apply Z.mod_small. Qed.

(** Closes [memory body a = v] with the slot of the frame that holds [v]. *)
Ltac by_slot H k :=
  first [ etransitivity; [| exact (H k ltac:(lia))]; f_equal; lia
        | match k with
          | S ?k' => by_slot H k'
          end ].

Ltac word64_flat :=
  repeat match goal with
         | |- context [word64 ?z] => rewrite (word64_in_range z) by lia
         end.

(** The registers that [preamble] saves: the frame pointer, the link
    register and [abi_save_gpr_regs_aarch64]. *)
Definition saved_xregs : list nat := 29%nat :: 30%nat :: abi_save_gpr_regs_aarch64.

(** What the prologue leaves in its frame, from the lowest address up. *)
Definition saved_values (m : a64) : list Z :=
  [xreg m 29; xreg m 30;
   dreg m 8; dreg m 9; dreg m 10; dreg m 11;
   dreg m 12; dreg m 13; dreg m 14; dreg m 15;
   xreg m 19; xreg m 20; xreg m 21; xreg m 22; xreg m 23; xreg m 24;
   xreg m 25; xreg m 26; xreg m 27; xreg m 28; xreg m 6; xreg m 7]%nat.

Section Frame.

Variable tmp_values : Z * Z.
Variable translated_mov : Reg64 -> Z -> a64 -> a64.
Variables X_TRANSLATOR_STACK X_TMP_0 X_TMP_1 : nat.
Variable xt_stack_offset : Z.
Variable mayiuse : cpu_isa_t -> bool.

Local Abbreviation enter :=
  (run tmp_values translated_mov
     (preamble X_TRANSLATOR_STACK X_TMP_0 X_TMP_1 xt_stack_offset mayiuse)).

Local Abbreviation leave := (run tmp_values translated_mov postamble).

Lemma a64_run_app (code code' : list a64_insn) (m : a64) :
  run tmp_values translated_mov (code ++ code') m
  = run tmp_values translated_mov code'
      (run tmp_values translated_mov code m).
Proof. unfold run. apply fold_left_app. Qed.

Lemma tail_frame (c : bool) (r : Reg64) (v : Z) (m : a64) :
  (forall r v m', sp_ (translated_mov r v m') = sp_ m'
                  /\ memory (translated_mov r v m') = memory m') ->
  sp_ (run tmp_values translated_mov
         (if c then [x64_mov_imm r v] else []) m) = sp_ m
  /\ memory (run tmp_values translated_mov
               (if c then [x64_mov_imm r v] else []) m) = memory m.
Proof.
  intros Htr. destruct c; [apply (Htr r v m) | split; reflexivity].
Qed.

Lemma enter_frame (m : a64) :
  preserved_stack_size <= sp_ m < 2 ^ 64 ->
  (forall r v m', sp_ (translated_mov r v m') = sp_ m'
                  /\ memory (translated_mov r v m') = memory m') ->
  sp_ (enter m) = sp_ m - preserved_stack_size
  /\ forall k : nat, (k < 22)%nat ->
       memory (enter m) (sp_ m - preserved_stack_size + 8 * Z.of_nat k)
       = nth k (saved_values m) 0.
Proof.
  intros Hsp Htr. unfold preamble, saved_values.
  change preserved_stack_size with 176 in *.
  rewrite !a64_run_app.
  match goal with
  | |- context [run _ _ (if ?c then [x64_mov_imm ?r ?v] else []) ?m0] =>
      destruct (tail_frame c r v m0 Htr) as [-> ->]
  end.
  assert (Hs : 0 <= sp_ m - 176 /\ sp_ m - 176 + 176 < 2 ^ 64) by lia.
  split.
  - cbn. apply word64_in_range. lia.
  - intros k Hk.
    set (a := sp_ m - 176 + 8 * Z.of_nat k).
    set (v := nth k _ 0).
    cbn.
    replace (sp_ m + -176) with (sp_ m - 176) by lia.
    set (s := sp_ m - 176) in *. clearbody s.
    word64_flat. subst a v.
    do 22 (destruct k as [| k];
           [cbn [nth]; repeat rewrite store_other by lia;
            apply store_eq; lia |]).
    lia.
Qed.

(** X15. In the AArch64 build, [preamble] lowers the stack pointer by
    [preserved_stack_size] and [postamble] undoes it: when the code in
    between leaves the stack pointer and the frame as [preamble] left them,
    [postamble] returns with the stack pointer, x29, x30, the registers of
    [abi_save_gpr_regs_aarch64] and the low halves of v8 to v15 as they
    were on entry, and with every other register and all of memory as the
    code in between left them. *)
Theorem postamble_restores_saved (m body : a64) :
  preserved_stack_size <= sp_ m < 2 ^ 64 ->
  (forall r v m', sp_ (translated_mov r v m') = sp_ m'
                  /\ memory (translated_mov r v m') = memory m') ->
  sp_ body = sp_ (enter m) ->
  (forall a, sp_ m - preserved_stack_size <= a < sp_ m ->
             memory body a = memory (enter m) a) ->
  sp_ (enter m) = sp_ m - preserved_stack_size
  /\ sp_ (leave body) = sp_ m
  /\ (forall r, In r saved_xregs -> xreg (leave body) r = xreg m r)
  /\ (forall v, (8 <= v < 16)%nat -> dreg (leave body) v = dreg m v)
  /\ (forall r, ~ In r saved_xregs -> xreg (leave body) r = xreg body r)
  /\ (forall v, ~ (8 <= v < 16)%nat -> dreg (leave body) v = dreg body v)
  /\ memory (leave body) = memory body.
Proof.
  intros Hsp Htr Hbsp Hbmem.
  destruct (enter_frame m Hsp Htr) as [Hesp Hemem].
  split; [exact Hesp |].
  rewrite Hesp in Hbsp.
  assert (Hslot : forall k : nat, (k < 22)%nat ->
            memory body (sp_ m - preserved_stack_size + 8 * Z.of_nat k)
            = nth k (saved_values m) 0).
  { intros k Hk. rewrite <- (Hemem k Hk). apply Hbmem.
    change preserved_stack_size with 176. lia. }
  clear Hbmem Hemem Hesp.
  change preserved_stack_size with 176 in *.
  assert (Hs : 0 <= sp_ m - 176 /\ sp_ m - 176 + 176 < 2 ^ 64) by lia.
  unfold saved_xregs.
  cbn. rewrite Hbsp.
  set (s := sp_ m - 176) in *.
  assert (Hm : sp_ m = s + 176) by (subst s; lia).
  clearbody s.
  word64_flat.
  repeat split.
  - lia.
  - intros r Hr.
    repeat (destruct Hr as [<- | Hr]; [cbn; by_slot Hslot 21%nat |]).
    contradiction.
  - intros v Hv.
    do 16 (destruct v as [| v]; [first [lia | cbn; by_slot Hslot 21%nat] |]).
    lia.
  - intros r Hr. unfold set_x.
    repeat match goal with
           | |- context [Nat.eqb r ?c] =>
               destruct (Nat.eqb_spec r c) as [-> | ?];
               [exfalso; apply Hr; intuition congruence |]
           end.
    reflexivity.
  - intros v Hv. unfold set_x.
    repeat match goal with
           | |- context [Nat.eqb v ?c] =>
               destruct (Nat.eqb_spec v c) as [-> | ?];
               [exfalso; apply Hv; lia |]
           end.
    reflexivity.
Qed.

End Frame.

(** A machine entered with the stack pointer at 4096 and x_r = 100 + r,
    d_v = 200 + v; the translated [mov] writes x5. *)
Definition entry_machine : a64 :=
  {| xreg := fun r => 100 + Z.of_nat r;
     sp_ := 4096;
     dreg := fun v => 200 + Z.of_nat v;
     memory := fun _ => 0 |}.

Definition mov_to_x5 (r : Reg64) (v : Z) (m : a64) : a64 :=
  {| xreg := set_x (xreg m) 5 (word64 v);
     sp_ := sp_ m; dreg := dreg m; memory := memory m |}.

Lemma postamble_restores_saved_witness :
  let enter :=
    run (0, 0) mov_to_x5 (preamble 22 23 24 4096 (fun _ => true)) in
  let leave := run (0, 0) mov_to_x5 postamble in
  xreg (enter entry_machine) 7 = 100
  /\ sp_ (leave (enter entry_machine)) = 4096
  /\ xreg (leave (enter entry_machine)) 7 = 107
  /\ dreg (leave (enter entry_machine)) 8 = 208.
Proof.
  intros enter leave.
  destruct (postamble_restores_saved (0, 0) mov_to_x5 22 23 24 4096
              (fun _ => true) entry_machine (enter entry_machine))
    as (_ & Hsp & Hx & Hd & _).
  - change preserved_stack_size with 176. simpl. lia.
  - intros r v m'. split; reflexivity.
  - reflexivity.
  - intros a _. reflexivity.
  - split; [reflexivity |].
    split; [exact Hsp |].
    split.
    + apply (Hx 7%nat). unfold saved_xregs, abi_save_gpr_regs_aarch64.
      simpl. tauto.
    + apply (Hd 8%nat). lia.
Defined.

End JitA64Facts.
